(** * rag-indexer: the repository-to-document indexing pipeline

    A shallow embedding of the Go packages [pkg/elasticsearch] and
    [pkg/indexer] and the properties of the pipeline proved over it.

    Conventions of the embedding.
    - Go [int] and [time.Duration] values are [Z]; none of the quantities
      below (function counts, offsets into a file, a backoff of at most four
      seconds) comes near the 64-bit range, so no wrap-around is written.
    - A Go [string] is a [string] of bytes.  A Go slice that may be [nil] is
      an [option (list _)]: [None] is the nil slice, [Some []] the empty one.
    - A Go [error] is a value of [error]; the [(T, error)] result pairs keep
      their shape, with [option error] for the nilable error.
    - Calls that leave the process (HTTP, git, the file system, the Go parser)
      are read from an explicit world or environment, and every call is
      appended to a log, so that "how many requests were made" is a property
      of the result. *)

From Stdlib Require Import ZArith Lia Bool Ascii String List.
From stdpp Require Import base option list strings gmap.

Set Warnings "-register-all".
Local Open Scope Z_scope.

(** ** Go values shared by the packages *)

(** The errors that travel through the pipeline.  [Wrapf p e] is
    [fmt.Errorf(p + ": %w", e)]. *)
Inductive error : Type :=
  | ErrGitConfigRequired
  | SkipDir
  | ContextErr
  | OSError (msg : string)
  | NetError (msg : string)
  | GitError (msg : string)
  | ParseError (msg : string)
  | JSONError (msg : string)
  | StatusError (msg : string) (status : Z)
  | Wrapf (prefix : string) (inner : error).


Definition is_SkipDir (e : error) : bool :=
  match e with SkipDir => true | _ => false end.

(** A slice that may be nil, and [append] on it. *)
Definition slice (A : Type) : Type := option (list A).

Definition append {A : Type} (s : slice A) (x : A) : slice A :=
  match s with
  | None => Some [x]
  | Some l => Some (l ++ [x])
  end.

(** [time.Time]: the wall-clock instant in nanoseconds since the Unix epoch,
    the zone offset in seconds east of UTC, and the optional monotonic clock
    reading that [time.Now] attaches. *)
Record Time : Type := mkTime {
  unixNano : Z;
  zoneOffset : Z;
  monotonic : option Z
}.


Definition Millisecond : Z := 1000000.

(** ** Package strings and path/filepath *)
Module GoStrings.

Definition dquote : string := String "034"%char EmptyString.
Definition slash : ascii := "/"%char.
Definition dot : ascii := "."%char.

Fixpoint HasPrefix (s prefix : string) : bool :=
  match prefix, s with
  | EmptyString, _ => true
  | String _ _, EmptyString => false
  | String a p', String b s' => if Ascii.eqb a b then HasPrefix s' p' else false
  end.

(** [strings.Index]: the index of the first instance of [substr] in [s],
    or -1. *)
Fixpoint Index (s substr : string) : Z :=
  if HasPrefix s substr then 0
  else match s with
       | EmptyString => -1
       | String _ s' =>
           let i := Index s' substr in
           if i <? 0 then -1 else i + 1
       end.

Definition Contains (s substr : string) : bool := 0 <=? Index s substr.

Definition len (s : string) : Z := Z.of_nat (String.length s).

(** [s[lo:hi]] on a string; [None] is the run-time panic "slice bounds out
    of range". *)
Definition slice_string (s : string) (lo hi : Z) : option string :=
  if (0 <=? lo) && (lo <=? hi) && (hi <=? len s)
  then Some (String.substring (Z.to_nat lo) (Z.to_nat (hi - lo)) s)
  else None.

(** [strings.Trim(s, cutset)] for a one-byte cutset. *)
Fixpoint TrimLeft (s : string) (c : ascii) : string :=
  match s with
  | String a s' => if Ascii.eqb a c then TrimLeft s' c else s
  | EmptyString => EmptyString
  end.

Fixpoint TrimRight (s : string) (c : ascii) : string :=
  match s with
  | EmptyString => EmptyString
  | String a s' =>
      match TrimRight s' c with
      | EmptyString => if Ascii.eqb a c then EmptyString else String a EmptyString
      | r => String a r
      end
  end.

Definition Trim (s : string) (c : ascii) : string := TrimRight (TrimLeft s c) c.

(** [strings.Replace(s, old, new, n)] for a non-empty [old]: the first [n]
    non-overlapping instances, all of them when [n] is negative.  [skip]
    counts the bytes of a matched [old] still to be dropped. *)
Fixpoint replace_from (s old new : string) (n : Z) (skip : nat) : string :=
  match s with
  | EmptyString => EmptyString
  | String a s' =>
      match skip with
      | S k => replace_from s' old new n k
      | O =>
          if negb (n =? 0) && HasPrefix s old
          then new +:+ replace_from s' old new (if n <? 0 then n else n - 1)
                                    (String.length old - 1)
          else String a (replace_from s' old new n O)
      end
  end.

Definition Replace (s old new : string) (n : Z) : string :=
  replace_from s old new n O.

Definition ReplaceAll (s old new : string) : string := Replace s old new (-1).

(** [filepath.Ext]: the suffix beginning at the final dot in the final
    element of [path]; empty if there is no dot.  The loop runs from the
    last byte backwards and stops at a path separator. *)
Fixpoint ext_scan (rev_bytes : list ascii) (suffix : list ascii) : list ascii :=
  match rev_bytes with
  | [] => []
  | c :: before =>
      if Ascii.eqb c slash then []
      else if Ascii.eqb c dot then c :: suffix
      else ext_scan before (c :: suffix)
  end.

Definition Ext (path : string) : string :=
  string_of_list_ascii (ext_scan (rev (list_ascii_of_string path)) []).

(** [filepath.Base]: the last element of [path], trailing separators
    removed; "." for the empty path, "/" for a path of separators only. *)
Fixpoint stripSlashes (rev_bytes : list ascii) : list ascii :=
  match rev_bytes with
  | c :: before => if Ascii.eqb c slash then stripSlashes before else rev_bytes
  | [] => []
  end.

Fixpoint lastElement (rev_bytes : list ascii) (suffix : list ascii) : list ascii :=
  match rev_bytes with
  | [] => suffix
  | c :: before =>
      if Ascii.eqb c slash then suffix else lastElement before (c :: suffix)
  end.

Definition Base (path : string) : string :=
  if String.eqb path "" then "."
  else match lastElement (stripSlashes (rev (list_ascii_of_string path))) [] with
       | [] => "/"
       | l => string_of_list_ascii l
       end.

(** [filepath.Join] of a clean path and a directory entry name (a name
    holds no separator, so no cleaning is left to do). *)
Definition Join (dir name : string) : string :=
  dir +:+ String slash name.

End GoStrings.

(** ** Package encoding/json, as far as [CodeDocument] uses it *)
Module Json.

(** A JSON document as a value.  The text of a document (white space,
    escapes) is not modelled: [Marshal] writes and [Unmarshal] reads the
    same values.  What the encoder does to the bytes of a string before
    they become a JSON string is modelled, see [coerceUTF8]. *)
Inductive value : Type :=
  | JNull
  | JBool (b : bool)
  | JNumber (n : Z)
  | JString (s : string)
  | JArray (items : list value)
  | JObject (members : list (string * value)).

Definition byte_in (lo hi : N) (c : ascii) : bool :=
  (N.leb lo (N_of_ascii c)) && (N.leb (N_of_ascii c) hi).

Definition cont (c : ascii) : bool := byte_in 128 191 c.

(** U+FFFD in UTF-8. *)
Definition replacement (rest : string) : string :=
  String "239"%char (String "191"%char (String "189"%char rest)).

(** [utf8.DecodeRuneInString] at the head of [s]: the width of the
    well-formed encoding that starts there, 0 if there is none (Go then
    reports [RuneError] with width 1). *)
Definition rune_width (s : string) : nat :=
  match s with
  | EmptyString => 0%nat
  | String b0 s1 =>
      if byte_in 0 127 b0 then 1%nat
      else match s1 with
      | EmptyString => 0%nat
      | String b1 s2 =>
          if byte_in 194 223 b0 then (if cont b1 then 2%nat else 0%nat)
          else match s2 with
          | EmptyString => 0%nat
          | String b2 s3 =>
              if byte_in 224 239 b0 then
                if (if byte_in 224 224 b0 then byte_in 160 191 b1
                    else if byte_in 237 237 b0 then byte_in 128 159 b1
                    else cont b1) && cont b2
                then 3%nat else 0%nat
              else match s3 with
              | EmptyString => 0%nat
              | String b3 _ =>
                  if byte_in 240 244 b0 then
                    if (if byte_in 240 240 b0 then byte_in 144 191 b1
                        else if byte_in 244 244 b0 then byte_in 128 143 b1
                        else cont b1) && cont b2 && cont b3
                    then 4%nat else 0%nat
                  else 0%nat
              end
          end
      end
  end.

(** The encoder's loop over a string: a well-formed rune is copied, any
    other byte becomes U+FFFD.  [keep] counts the bytes of the current
    rune still to be copied. *)
Fixpoint coerce_from (s : string) (keep : nat) : string :=
  match s with
  | EmptyString => EmptyString
  | String b s' =>
      match keep with
      | S k => String b (coerce_from s' k)
      | O =>
          match rune_width s with
          | O => replacement (coerce_from s' O)
          | S k => String b (coerce_from s' k)
          end
      end
  end.

Definition coerceUTF8 (s : string) : string := coerce_from s O.




End Json.

(** ** Package elasticsearch *)
Module Elasticsearch.
Import GoStrings Json.

(** *** models.go *)

(** CodeDocument represents a Go function indexed in Elasticsearch. *)
Record CodeDocument : Type := mkCodeDocument {
  Repo : string;
  FilePath : string;
  FunctionName : string;
  Code : string;
  HasNamedReturns : bool;
  HasErrorHandling : bool;
  Package : string;
  Imports : slice string;
  LintCompliant : bool;
  IndexedAt : Time
}.

(** The fields of the struct and their [json:"..."] tags. *)
Inductive field : Type :=
  | FRepo | FFilePath | FFunctionName | FCode | FHasNamedReturns
  | FHasErrorHandling | FPackage | FImports | FLintCompliant | FIndexedAt.

Definition fields : list field :=
  [FRepo; FFilePath; FFunctionName; FCode; FHasNamedReturns;
   FHasErrorHandling; FPackage; FImports; FLintCompliant; FIndexedAt].

Definition tag (f : field) : string :=
  match f with
  | FRepo => "repo"
  | FFilePath => "file_path"
  | FFunctionName => "function_name"
  | FCode => "code"
  | FHasNamedReturns => "has_namedreturns"
  | FHasErrorHandling => "has_error_handling"
  | FPackage => "package"
  | FImports => "imports"
  | FLintCompliant => "lint_compliant"
  | FIndexedAt => "indexed_at"
  end.



Section Codec.
(** [Time.MarshalJSON] writes a quoted RFC 3339 string with nanoseconds
    and fails for a year outside 0..9999; [Time.UnmarshalJSON] reads one.
    Package time is taken by these two functions. *)
Variable formatRFC3339 : Time -> option string.
Variable parseRFC3339 : string -> option Time.

Definition marshalString (s : string) : value := JString (coerceUTF8 s).

Definition marshalStrings (s : slice string) : value :=
  match s with
  | None => JNull
  | Some l => JArray (map marshalString l)
  end.

Definition marshalField (doc : CodeDocument) (f : field) : error + value :=
  match f with
  | FRepo => inr (marshalString (Repo doc))
  | FFilePath => inr (marshalString (FilePath doc))
  | FFunctionName => inr (marshalString (FunctionName doc))
  | FCode => inr (marshalString (Code doc))
  | FHasNamedReturns => inr (JBool (HasNamedReturns doc))
  | FHasErrorHandling => inr (JBool (HasErrorHandling doc))
  | FPackage => inr (marshalString (Package doc))
  | FImports => inr (marshalStrings (Imports doc))
  | FLintCompliant => inr (JBool (LintCompliant doc))
  | FIndexedAt =>
      match formatRFC3339 (IndexedAt doc) with
      | Some s => inr (JString s)
      | None => inl (JSONError "Time.MarshalJSON: year outside of range [0,9999]")
      end
  end.

Fixpoint marshalFields (doc : CodeDocument) (fs : list field)
  : error + list (string * value) :=
  match fs with
  | [] => inr []
  | f :: rest =>
      match marshalField doc f with
      | inl e => inl e
      | inr v =>
          match marshalFields doc rest with
          | inl e => inl e
          | inr ms => inr ((tag f, v) :: ms)
          end
      end
  end.

(** [json.Marshal(doc)]: an object with one member per field, in the
    order of the struct; no field is [omitempty]. *)
Definition Marshal (doc : CodeDocument) : error + value :=
  match marshalFields doc fields with
  | inl e => inl e
  | inr ms => inr (JObject ms)
  end.










End Codec.

(** *** client.go *)

Definition maxRetries : Z := 3.
Definition retryBackoff : Z := 500 * Millisecond.
Definition retryMultiplier : Z := 2.

Definition StatusOK : Z := 200.
Definition StatusMultipleChoices : Z := 300.
Definition StatusBadRequest : Z := 400.
Definition StatusNotFound : Z := 404.
Definition StatusInternalServerError : Z := 500.

(** Client handles Elasticsearch operations. *)
Record Client : Type := mkClient {
  host : string;
  index : string;
  username : string;
  password : string
}.

Inductive Method : Type := MethodHead | MethodGet | MethodPut | MethodPost.

(** A [context.Context] on the model's clock: [doneAt] is the instant at
    which its [Done] channel closes, if it ever does. *)
Record Context : Type := mkContext { doneAt : option Z }.

Definition Background : Context := mkContext None.

Record Request : Type := mkRequest {
  method : Method;
  url : string;
  body : string;
  contentType : string;
  basicAuth : option (string * string);
  ctx : Context
}.

Record Response : Type := mkResponse {
  StatusCode : Z;
  Body : string
}.

(** What happens to one request on its way: it reaches the store and is
    answered by it, it is lost (a transport error), or an answer with a
    given status comes back without the store having acted (a failing or
    simulated endpoint). *)
Inductive Outcome : Type :=
  | Deliver
  | Drop (msg : string)
  | Reply (status : Z) (content : string).

Inductive Event : Type :=
  | EvDo (req : Request)
  | EvSleep (d : Z).

(** The world of the client: the clock (nanoseconds), the indices of the
    store (resource URL to the settings and mappings it was created with),
    the outcomes of the coming requests (all delivered once the list is
    used up), and the log of what the client did. *)
Record World : Type := mkWorld {
  clock : Z;
  store : gmap string string;
  script : list Outcome;
  log : list Event
}.

Definition logged (e : Event) (w : World) : World :=
  mkWorld (clock w) (store w) (script w) (log w ++ [e]).

Definition is_done (c : Context) (now : Z) : bool :=
  match doneAt c with
  | Some t => t <=? now
  | None => false
  end.

(** The store's answer to a delivered request.  HEAD on an index: 200 if
    it exists, 404 if not.  PUT on an index: it is created with the body
    sent, and 400 is the answer if it exists already.  Documents are not
    part of the state. *)
Definition serve (req : Request) (s : gmap string string)
  : gmap string string * Response :=
  match method req with
  | MethodHead =>
      match s !! url req with
      | Some _ => (s, mkResponse StatusOK "")
      | None => (s, mkResponse StatusNotFound "")
      end
  | MethodPut =>
      match s !! url req with
      | Some _ => (s, mkResponse StatusBadRequest "resource_already_exists_exception")
      | None => (<[url req := body req]> s, mkResponse StatusOK "")
      end
  | MethodGet | MethodPost => (s, mkResponse StatusOK "")
  end.

(** [es.client.Do(req)]. *)
Definition Do (req : Request) (w : World) : World * (error + Response) :=
  let w := logged (EvDo req) w in
  if is_done (ctx req) (clock w) then (w, inl ContextErr)
  else match script w with
       | [] =>
           let '(s, resp) := serve req (store w) in
           (mkWorld (clock w) s [] (log w), inr resp)
       | Deliver :: rest =>
           let '(s, resp) := serve req (store w) in
           (mkWorld (clock w) s rest (log w), inr resp)
       | Drop msg :: rest =>
           (mkWorld (clock w) (store w) rest (log w), inl (NetError msg))
       | Reply status content :: rest =>
           (mkWorld (clock w) (store w) rest (log w), inr (mkResponse status content))
       end.

(** The [select] between [req.Context().Done()] and [time.After(backoff)]:
    [true] when the context is done first.  A completed sleep is logged. *)
Definition wait (c : Context) (backoff : Z) (w : World) : World * bool :=
  match doneAt c with
  | Some t =>
      if t <=? clock w + backoff
      then (mkWorld (Z.max (clock w) t) (store w) (script w) (log w), true)
      else (logged (EvSleep backoff)
              (mkWorld (clock w + backoff) (store w) (script w) (log w)), false)
  | None =>
      (logged (EvSleep backoff)
         (mkWorld (clock w + backoff) (store w) (script w) (log w)), false)
  end.

(** The body of the loop [for attempt := 0; attempt <= maxRetries;
    attempt++], by recursion on the number of iterations left, and the
    code after the loop. *)
Fixpoint retryLoop (left : nat) (attempt backoff : Z) (req : Request)
    (resp : option Response) (err : option error) (w : World)
  : World * (option Response * option error) :=
  match left with
  | O =>
      match err, resp with
      | None, Some r =>
          (w, (resp, Some (StatusError "elasticsearch request failed after 3 retries"
                                       (StatusCode r))))
      | _, _ => (w, (resp, err))
      end
  | S n =>
      let '(w, cancelled, backoff) :=
        if 0 <? attempt
        then let '(w', c) := wait (ctx req) backoff w in
             (w', c, if c then backoff else backoff * retryMultiplier)
        else (w, false, backoff) in
      if cancelled : bool then (w, (resp, Some ContextErr))
      else match Do req w with
           | (w, inl e) =>
               retryLoop n (attempt + 1) backoff req None (Some e) w
           | (w, inr r) =>
               if StatusCode r <? StatusInternalServerError
               then (w, (Some r, None))
               else retryLoop n (attempt + 1) backoff req (Some r) None w
           end
  end.

(** doRequestWithRetry executes an HTTP request with exponential backoff
    retry for 5xx errors. *)
Definition doRequestWithRetry (req : Request) (w : World)
  : World * (option Response * option error) :=
  retryLoop (Z.to_nat (maxRetries + 1)) 0 retryBackoff req None None w.

(** *** Index provisioning *)

(** The settings and mappings every index is created with. *)
Definition q (s : string) : string := dquote +:+ s +:+ dquote.

Definition property (name kind : string) : string :=
  q name +:+ ": {" +:+ q "type" +:+ ": " +:+ q kind +:+ "}".

Definition indexMapping : string :=
  "{ " +:+ q "settings" +:+ ": { "
    +:+ q "number_of_shards" +:+ ": 1, "
    +:+ q "number_of_replicas" +:+ ": 0, "
    +:+ q "refresh_interval" +:+ ": " +:+ q "30s" +:+ " }, "
  +:+ q "mappings" +:+ ": { " +:+ q "properties" +:+ ": { "
    +:+ property "repo" "keyword" +:+ ", "
    +:+ property "file_path" "keyword" +:+ ", "
    +:+ property "function_name" "keyword" +:+ ", "
    +:+ q "code" +:+ ": {" +:+ q "type" +:+ ": " +:+ q "text" +:+ ", "
                 +:+ q "analyzer" +:+ ": " +:+ q "standard" +:+ "}, "
    +:+ property "has_namedreturns" "boolean" +:+ ", "
    +:+ property "has_error_handling" "boolean" +:+ ", "
    +:+ property "package" "keyword" +:+ ", "
    +:+ property "imports" "keyword" +:+ ", "
    +:+ property "lint_compliant" "boolean" +:+ ", "
    +:+ property "indexed_at" "date" +:+ " } } }".

Section Index.
(** [http.NewRequestWithContext] fails on a URL that does not parse;
    which URLs parse is left to package net/url. *)
Variable parses : string -> bool.

Definition NewRequestWithContext (c : Context) (m : Method) (u : string)
    (content : string) : error + Request :=
  if parses u then inr (mkRequest m u content "" None c)
  else inl (NetError "net/url: invalid URL").

Definition SetContentType (t : string) (r : Request) : Request :=
  mkRequest (method r) (url r) (body r) t (basicAuth r) (ctx r).

Definition SetBasicAuth (user pass : string) (r : Request) : Request :=
  mkRequest (method r) (url r) (body r) (contentType r) (Some (user, pass)) (ctx r).

Definition withAuth (es : Client) (r : Request) : Request :=
  if String.eqb (username es) "" then r
  else SetBasicAuth (username es) (password es) r.

Definition indexURL (es : Client) : string :=
  host es +:+ "/" +:+ index es.

(** indexExists checks if the index exists. *)
Definition indexExists (es : Client) (c : Context) (w : World)
  : World * (bool * option error) :=
  match NewRequestWithContext c MethodHead (indexURL es) "" with
  | inl e => (w, (false, Some e))
  | inr req =>
      let req := withAuth es req in
      match Do req w with
      | (w, inl e) => (w, (false, Some e))
      | (w, inr resp) =>
          if StatusCode resp =? StatusOK then (w, (true, None))
          else if StatusCode resp =? StatusNotFound then (w, (false, None))
          else (w, (false, Some (StatusError "unexpected status code"
                                             (StatusCode resp))))
      end
  end.

(** EnsureIndex ensures the index exists with the correct mapping.
    If the index already exists, this is a no-op.  The deferred
    [resp.Body.Close()] needs a response: [doRequestWithRetry] returns one
    whenever it returns no error (lemma [doRequestWithRetry_some] below), so
    the branch of a nil response with a nil error is never taken. *)
Definition EnsureIndex (es : Client) (c : Context) (w : World)
  : World * option error :=
  let '(w, (exists_, checkErr)) := indexExists es c w in
  match checkErr with
  | Some e => (w, Some (Wrapf "failed to check if index exists" e))
  | None =>
      if exists_ : bool then (w, None)
      else
        match NewRequestWithContext c MethodPut (indexURL es) indexMapping with
        | inl e => (w, Some (Wrapf "failed to create request" e))
        | inr req =>
            let req := withAuth es (SetContentType "application/json" req) in
            match doRequestWithRetry req w with
            | (w, (_, Some e)) => (w, Some (Wrapf "failed to create index" e))
            | (w, (None, None)) => (w, None)
            | (w, (Some resp, None)) =>
                if StatusMultipleChoices <=? StatusCode resp
                then (w, Some (StatusError "elasticsearch error creating index"
                                           (StatusCode resp)))
                else (w, None)
            end
        end
  end.
End Index.

End Elasticsearch.

(** ** Package indexer: parser.go and visitor.go *)
Module Parser.
Import GoStrings Elasticsearch.

(** *** go/ast, the part the extractor reads *)
Record Ident : Type := mkIdent { IdentName : string }.

(** One entry of a parameter or result list: [Names] is empty for an
    unnamed result, and holds several names for [a, b int]. *)
Record Field : Type := mkField { Names : list Ident; TypeExpr : string }.

Record FieldList : Type := mkFieldList { Fields : list Field }.

(** [Results] is nil for a function without results. *)
Record FuncType : Type := mkFuncType {
  Params : FieldList;
  Results : option FieldList
}.

(** [PosOffset] and [EndOffset] are [fset.Position(d.Pos()).Offset] and
    [fset.Position(d.End()).Offset]. *)
Record FuncDecl : Type := mkFuncDecl {
  Name : Ident;
  Typ : FuncType;
  PosOffset : Z;
  EndOffset : Z
}.

Record ImportSpec : Type := mkImportSpec { PathValue : string }.

(** A parsed file.  [ast.Inspect] meets the function declarations in the
    order of [Decls]: a [FuncDecl] occurs at the top level of a file only. *)
Record File : Type := mkFile {
  PackageName : Ident;
  FileImports : list ImportSpec;
  Decls : list FuncDecl
}.

(** hasNamedReturns checks if a function has named return values. *)
Fixpoint hasNamedReturns_loop (l : list Field) : bool :=
  match l with
  | [] => false
  | field :: rest =>
      if (0 <? Z.of_nat (length (Names field))) then true
      else hasNamedReturns_loop rest
  end.

Definition hasNamedReturns (funcDecl : FuncDecl) : bool :=
  match Results (Typ funcDecl) with
  | None => false
  | Some results => hasNamedReturns_loop (Fields results)
  end.

(** extractFunctionDoc extracts metadata and code from a function
    declaration.  [now] is the value of [time.Now()]; [None] is the panic
    of [content[start:end]] on offsets outside of [content]. *)
Definition extractFunctionDoc (funcDecl : FuncDecl) (content : string)
    (repo filePath pkgName : string) (imports : slice string) (now : Time)
  : option CodeDocument :=
  let start := PosOffset funcDecl in
  let end_ := EndOffset funcDecl in
  match slice_string content start end_ with
  | None => None
  | Some code =>
      Some (mkCodeDocument repo filePath (IdentName (Name funcDecl)) code
              (hasNamedReturns funcDecl)
              (Contains code "if err != nil")
              pkgName imports false now)
  end.

(** The calls that leave the package. *)
Record Env : Type := mkEnv {
  ParseFile : string -> error + File;
  ReadFile : string -> error + string;
  IndexDocument : CodeDocument -> option error;
  Now : Time
}.

(** astVisitor visits AST nodes and indexes functions.  [warned] is the
    log of the functions the store refused. *)
Record astVisitor : Type := mkAstVisitor {
  content : string;
  repo : string;
  filePath : string;
  pkgName : string;
  imports : slice string;
  funcCount : Z;
  warned : list string
}.

(** Visit, on a function declaration (on any other node it does nothing
    and continues). *)
Definition Visit (env : Env) (v : astVisitor) (funcDecl : FuncDecl)
  : option astVisitor :=
  match extractFunctionDoc funcDecl (content v) (repo v) (filePath v)
          (pkgName v) (imports v) (Now env) with
  | None => None
  | Some doc =>
      match IndexDocument env doc with
      | Some _ =>
          Some (mkAstVisitor (content v) (repo v) (filePath v) (pkgName v)
                  (imports v) (funcCount v) (warned v ++ [FunctionName doc]))
      | None =>
          Some (mkAstVisitor (content v) (repo v) (filePath v) (pkgName v)
                  (imports v) (funcCount v + 1) (warned v))
      end
  end.

Fixpoint Inspect (env : Env) (decls : list FuncDecl) (v : astVisitor)
  : option astVisitor :=
  match decls with
  | [] => Some v
  | d :: rest =>
      match Visit env v d with
      | None => None
      | Some v' => Inspect env rest v'
      end
  end.

(** The loop that collects the import paths: [imports] starts nil and
    stays nil for a file without imports. *)
Fixpoint collectImports (specs : list ImportSpec) (imports : slice string)
  : slice string :=
  match specs with
  | [] => imports
  | imp :: rest =>
      collectImports rest (append imports (Trim (PathValue imp) "034"%char))
  end.

(** indexFile parses a Go file and indexes all functions found within it.
    [None] is a panic of [extractFunctionDoc]. *)
Definition indexFile (env : Env) (repo filePath : string)
  : option (Z * option error) :=
  match ParseFile env filePath with
  | inl e => Some (0, Some (Wrapf "failed to parse file" e))
  | inr node =>
      let pkgName := IdentName (PackageName node) in
      let imports := collectImports (FileImports node) None in
      match ReadFile env filePath with
      | inl e => Some (0, Some (Wrapf "failed to read file" e))
      | inr content =>
          let visitor := mkAstVisitor content repo filePath pkgName imports 0 [] in
          match Inspect env (Decls node) visitor with
          | None => None
          | Some visitor => Some (funcCount visitor, None)
          end
      end
  end.

End Parser.

(** ** Package indexer: walker.go, with path/filepath's Walk *)
Module Walker.
Import GoStrings.

(** The tree under a path, as [os.Lstat] and the directory listings show
    it.  A [File] is anything that is not a directory.  A [Dir] has the
    error of listing it, if that fails, and its entries in the order
    [filepath.Walk] visits them (sorted by name).  An [Unreadable] entry
    is one on which [os.Lstat] fails. *)
Inductive Node : Type :=
  | File (name : string)
  | Dir (name : string) (readErr : option string) (entries : list Node)
  | Unreadable (name : string) (isDir : bool) (lstatErr : string).

Definition nodeName (n : Node) : string :=
  match n with
  | File name | Dir name _ _ | Unreadable name _ _ => name
  end.

Definition nodeIsDir (n : Node) : bool :=
  match n with
  | File _ => false
  | Dir _ _ _ => true
  | Unreadable _ d _ => d
  end.

Record FileInfo : Type := mkFileInfo { InfoName : string; IsDir : bool }.

(** What [filepath.Walk] hands to its callback besides the path: either
    the file info, with a nil error, or an error, with the info if
    [os.Lstat] had succeeded. *)
Inductive visit : Type :=
  | Found (info : FileInfo)
  | Failed (info : option FileInfo) (pathErr : error).

(** fileWalker handles walking a repository tree and indexing Go files.
    [indexed] logs the paths handed to [indexFile], [failed] the paths
    whose failure was warned about and counted in [ParseErrors]. *)
Record fileWalker : Type := mkFileWalker {
  repoName : string;
  totalCount : Z;
  indexed : list string;
  failed : list string
}.

Section Walk.
(** The result of parser.go's [indexFile] for a repository name and a
    path. *)
Variable indexFile : string -> string -> Z * option error.

(** walk processes a single file or directory in the tree. *)
Definition walk (fw : fileWalker) (path : string) (v : visit)
  : fileWalker * option error :=
  match v with
  | Failed _ pathErr => (fw, Some pathErr)
  | Found info =>
      if IsDir info && (String.eqb (InfoName info) "vendor"
                        || String.eqb (InfoName info) ".git")
      then (fw, Some SkipDir)
      else if negb (String.eqb (Ext path) ".go") then (fw, None)
      else
        match indexFile (repoName fw) path with
        | (_, Some _) =>
            (mkFileWalker (repoName fw) (totalCount fw)
               (indexed fw ++ [path]) (failed fw ++ [path]), None)
        | (fileCount, None) =>
            (mkFileWalker (repoName fw) (totalCount fw + fileCount)
               (indexed fw ++ [path]) (failed fw), None)
        end
  end.

Section FilepathWalk.
Variable walkFn : fileWalker -> string -> visit -> fileWalker * option error.

(** [filepath.walk]: [n] is what [os.Lstat] found at [path]. *)
Fixpoint walkNode (path : string) (n : Node) (fw : fileWalker) {struct n}
  : fileWalker * option error :=
  match n with
  | File name => walkFn fw path (Found (mkFileInfo name false))
  | Unreadable name d e => walkFn fw path (Failed None (OSError e))
  | Dir name readErr entries =>
      let info := mkFileInfo name true in
      let '(fw, err1) :=
        walkFn fw path
          (match readErr with
           | None => Found info
           | Some e => Failed (Some info) (OSError e)
           end) in
      match readErr, err1 with
      | Some _, _ | _, Some _ => (fw, err1)
      | None, None =>
        (fix walkEntries (l : list Node) (fw : fileWalker) {struct l}
           : fileWalker * option error :=
           match l with
           | [] => (fw, None)
           | k :: rest =>
               let filename := Join path (nodeName k) in
               match k with
               | Unreadable _ _ e =>
                   match walkFn fw filename (Failed None (OSError e)) with
                   | (fw, Some err) =>
                       if is_SkipDir err then walkEntries rest fw
                       else (fw, Some err)
                   | (fw, None) => walkEntries rest fw
                   end
               | _ =>
                   match walkNode filename k fw with
                   | (fw, Some err) =>
                       if negb (nodeIsDir k) || negb (is_SkipDir err)
                       then (fw, Some err)
                       else walkEntries rest fw
                   | (fw, None) => walkEntries rest fw
                   end
               end
           end) entries fw
      end
  end.

(** [filepath.Walk(root, fn)]. *)
Definition Walk (root : string) (n : Node) (fw : fileWalker)
  : fileWalker * option error :=
  let '(fw, err) :=
    match n with
    | Unreadable _ _ e => walkFn fw root (Failed None (OSError e))
    | _ => walkNode root n fw
    end in
  match err with
  | Some SkipDir => (fw, None)
  | _ => (fw, err)
  end.
End FilepathWalk.
End Walk.

End Walker.

(** ** Package indexer: git.go *)
Module Git.
Import GoStrings.

(** One run of an external command: its combined output, its error, and
    whether the context's deadline had passed when it returned. *)
Record RunResult : Type := mkRunResult {
  output : string;
  runErr : option string;
  deadlineExceeded : bool
}.

(** The process environment: [os.Environ], [os.Getenv], and
    [exec.CommandContext(...).CombinedOutput] under a timeout. *)
Record Env : Type := mkEnv {
  Environ : list string;
  Getenv : string -> string;
  CombinedOutput : Z -> list string -> list string -> RunResult
}.

Definition Minute : Z := 60 * 1000 * Millisecond.

(** buildGitEnv constructs the environment for git commands with SSH
    configuration. *)
Definition buildGitEnv (e : Env) (sshKeyPath sshCommand : string) : list string :=
  let env := Environ e in
  if negb (String.eqb sshCommand "") then
    env ++ ["GIT_SSH_COMMAND=" +:+ sshCommand]
  else if negb (String.eqb sshKeyPath "") then
    let sshCmd := "ssh -i " +:+ sshKeyPath +:+ " -o StrictHostKeyChecking=yes" in
    env ++ ["GIT_SSH_COMMAND=" +:+ sshCmd]
  else env.

Definition failure (what : string) (r : RunResult) (e : string) : error :=
  if deadlineExceeded r
  then Wrapf ("git " +:+ what +:+ " timed out") (GitError e)
  else Wrapf ("git " +:+ what +:+ " failed, output: " +:+ output r) (GitError e).

(** gitClone clones a git repository to the target directory. *)
Definition gitClone (e : Env) (url target sshKeyPath sshCommand : string)
  : option error :=
  let cloneTimeout := 5 * Minute in
  let r := CombinedOutput e cloneTimeout ["git"; "clone"; url; target]
             (buildGitEnv e sshKeyPath sshCommand) in
  match runErr r with
  | Some err => Some (failure "clone" r err)
  | None => None
  end.

(** gitFetch fetches updates from remote and resets to origin/HEAD. *)
Definition gitFetch (e : Env) (repoPath sshKeyPath sshCommand : string)
  : option error :=
  let fetchTimeout := 2 * Minute in
  let r := CombinedOutput e fetchTimeout ["git"; "-C"; repoPath; "fetch"; "--all"]
             (buildGitEnv e sshKeyPath sshCommand) in
  match runErr r with
  | Some err => Some (failure "fetch" r err)
  | None =>
      let r := CombinedOutput e fetchTimeout
                 ["git"; "-C"; repoPath; "reset"; "--hard"; "origin/HEAD"]
                 (buildGitEnv e sshKeyPath sshCommand) in
      match runErr r with
      | Some err => Some (failure "reset" r err)
      | None => None
      end
  end.

(** buildRepoURL constructs a repository URL from template, org, repo
    name, and optional token. *)
Definition buildRepoURL (urlFormat org repo token : string) : string :=
  let url := ReplaceAll urlFormat "{org}" org in
  let url := ReplaceAll url "{repo}" repo in
  if negb (String.eqb token "")
  then Replace url "https://" ("https://" +:+ token +:+ "@") 1
  else url.

End Git.

(** ** Package indexer: the Indexer *)
Module Indexer.
Import GoStrings Walker.

(** The configuration, as far as the indexer reads it. *)
Record Config : Type := mkConfig {
  GitOrg : string;
  GitRepos : list string;
  ReposPath : string;
  GitURLFormat : string;
  GitToken : string;
  GitSSHKeyPath : string
}.

(** *** CloneRepos *)

Inductive LogEntry : Type :=
  | Info (msg repo : string)
  | Warn (msg repo : string) (err : error).

(** What [CloneRepos] did outside of the process, with the result. *)
Inductive Action : Type :=
  | MkdirAll (path : string) (result : option string)
  | Fetch (repo target : string) (result : option error)
  | Clone (repo url target : string) (result : option error).

(** The local state [CloneRepos] works on: the target directories that
    hold a [.git], the directories [os.MkdirAll] cannot create (with the
    error), what was done, and what was logged. *)
Record Local : Type := mkLocal {
  checkouts : gset string;
  mkdirErr : string -> option string;
  actions : list Action;
  logs : list LogEntry
}.

Definition did (a : Action) (l : Local) : Local :=
  mkLocal (checkouts l) (mkdirErr l) (actions l ++ [a]) (logs l).

Definition logging (e : LogEntry) (l : Local) : Local :=
  mkLocal (checkouts l) (mkdirErr l) (actions l) (logs l ++ [e]).

Definition checkedOut (target : string) (l : Local) : Local :=
  mkLocal ({[target]} ∪ checkouts l) (mkdirErr l) (actions l) (logs l).

Section Clone.
Variable env : Git.Env.
Variable config : Config.

(** cloneOrUpdateRepo clones a repo if it doesn't exist, or updates it if
    it does. *)
Definition cloneOrUpdateRepo (repo : string) (l : Local) : Local * option error :=
  let repoURL := Git.buildRepoURL (GitURLFormat config) (GitOrg config) repo
                   (GitToken config) in
  let targetDir := Join (ReposPath config) repo in
  if bool_decide (targetDir ∈ checkouts l) then
    let l := logging (Info "Repository already exists, fetching updates" repo) l in
    let err := Git.gitFetch env targetDir (GitSSHKeyPath config)
                 (Git.Getenv env "GIT_SSH_COMMAND") in
    let l := did (Fetch repo targetDir err) l in
    match err with
    | Some e => (l, Some (Wrapf "failed to fetch" e))
    | None => (l, None)
    end
  else
    let l := logging (Info "Cloning repository" repo) l in
    let err := Git.gitClone env repoURL targetDir (GitSSHKeyPath config)
                 (Git.Getenv env "GIT_SSH_COMMAND") in
    let l := did (Clone repo repoURL targetDir err) l in
    match err with
    | Some e => (l, Some (Wrapf "failed to clone" e))
    | None => (checkedOut targetDir l, None)
    end.

(** The loop of [CloneRepos] over the configured repositories. *)
Fixpoint cloneLoop (repos : list string) (l : Local) : Local :=
  match repos with
  | [] => l
  | repo :: rest =>
      match cloneOrUpdateRepo repo l with
      | (l, Some cloneErr) =>
          cloneLoop rest (logging (Warn "Failed to process repository" repo cloneErr) l)
      | (l, None) => cloneLoop rest l
      end
  end.

(** CloneRepos clones or updates git repositories configured in the
    application. *)
Definition CloneRepos (l : Local) : Local * option error :=
  if String.eqb (GitOrg config) "" || (Z.of_nat (length (GitRepos config)) =? 0)
  then (l, Some ErrGitConfigRequired)
  else
    let err := mkdirErr l (ReposPath config) in
    let l := did (MkdirAll (ReposPath config) err) l in
    match err with
    | Some e => (l, Some (Wrapf "failed to create repos directory" (OSError e)))
    | None => (cloneLoop (GitRepos config) l, None)
    end.
End Clone.

(** *** IndexAllRepos *)

(** The metrics the indexer writes, and the errors it logs. *)
Record Metrics : Type := mkMetrics {
  ReposIndexed : Z;
  FunctionsIndexed : gmap string Z;
  errorLog : list (string * error)
}.

Section Index.
Variable indexFile : string -> string -> Z * option error.
Variable config : Config.

(** walkAndIndexRepo walks the repository tree and indexes Go files;
    [n] is the tree at [repoPath]. *)
Definition walkAndIndexRepo (repoName repoPath : string) (n : Node)
  : Z * option error :=
  let walker := mkFileWalker repoName 0 [] [] in
  let '(walker, walkErr) := Walk (walk indexFile) repoPath n walker in
  (totalCount walker, walkErr).

(** IndexRepository indexes a single repository by walking its file
    tree. *)
Definition IndexRepository (repoPath : string) (n : Node) (m : Metrics)
  : Metrics * (Z * option error) :=
  let repoName := Base repoPath in
  let '(count, err) := walkAndIndexRepo repoName repoPath n in
  match err with
  | None =>
      (mkMetrics (ReposIndexed m)
         (<[repoName := default 0 (FunctionsIndexed m !! repoName) + count]>
            (FunctionsIndexed m))
         (errorLog m),
       (count, err))
  | Some _ => (m, (count, err))
  end.

(** [os.IsNotExist] of the error of [os.Stat(repoPath/.git)]. *)
Definition gitMissing (n : Node) : bool :=
  match n with
  | Dir _ _ entries =>
      negb (existsb (fun k => String.eqb (nodeName k) ".git") entries)
  | _ => false
  end.

(** indexRepoIfValid checks if a directory is a valid git repo and
    indexes it. *)
Definition indexRepoIfValid (name : string) (n : Node) (m : Metrics)
  : Metrics * (Z * option error) :=
  let repoPath := Join (ReposPath config) name in
  if gitMissing n then (m, (0, None))
  else IndexRepository repoPath n m.

(** One iteration of the loop of [IndexAllRepos] over the entries of the
    repos directory. *)
Definition indexEntry (entry : Node) (totalCount : Z) (m : Metrics)
  : Metrics * Z :=
  if negb (nodeIsDir entry) then (m, totalCount)
  else
    match indexRepoIfValid (nodeName entry) entry m with
    | (m, (_, Some indexErr)) =>
        (mkMetrics (ReposIndexed m) (FunctionsIndexed m)
           (errorLog m ++ [(nodeName entry, indexErr)]), totalCount)
    | (m, (count, None)) =>
        (mkMetrics (ReposIndexed m + 1) (FunctionsIndexed m) (errorLog m),
         totalCount + count)
    end.

Fixpoint indexEntries (entries : list Node) (totalCount : Z) (m : Metrics)
  : Metrics * Z :=
  match entries with
  | [] => (m, totalCount)
  | entry :: rest =>
      let '(m, totalCount) := indexEntry entry totalCount m in
      indexEntries rest totalCount m
  end.

(** The body of [IndexAllRepos] between [Lock] and the deferred
    [Unlock], run without interruption; [root] is the result of
    [os.ReadDir(ReposPath)]. *)
Definition indexAll (root : string + list Node) (m : Metrics)
  : Metrics * (Z * option error) :=
  match root with
  | inl e => (m, (0, Some (Wrapf "failed to read repos directory" (OSError e))))
  | inr entries =>
      let '(m, totalCount) := indexEntries entries 0 m in
      (m, (totalCount, None))
  end.

(** **** Several invocations of [IndexAllRepos] on one [Indexer] *)

(** Where one invocation stands. *)
Inductive Phase : Type :=
  | AtLock
  | AtReadDir
  | InLoop (entries : list Node) (totalCount : Z)
  | AtReturn (totalCount : Z) (err : option error)
  | Returned (totalCount : Z) (err : option error).

(** The indexer as the invocations share it: [mu] is true while the
    mutex is locked. *)
Record State : Type := mkState {
  mu : bool;
  metrics : Metrics;
  calls : list Phase
}.

(** The next step of an invocation, if it can take one.  [Lock] blocks
    while the mutex is locked; the deferred [Unlock] runs after the
    results are set. *)
Definition advance (root : string + list Node) (p : Phase) (locked : bool)
    (m : Metrics) : option (Phase * bool * Metrics) :=
  match p with
  | AtLock => if locked then None else Some (AtReadDir, true, m)
  | AtReadDir =>
      match root with
      | inl e =>
          Some (AtReturn 0 (Some (Wrapf "failed to read repos directory" (OSError e))),
                locked, m)
      | inr entries => Some (InLoop entries 0, locked, m)
      end
  | InLoop [] totalCount => Some (AtReturn totalCount None, locked, m)
  | InLoop (entry :: rest) totalCount =>
      let '(m, totalCount) := indexEntry entry totalCount m in
      Some (InLoop rest totalCount, locked, m)
  | AtReturn totalCount err => Some (Returned totalCount err, false, m)
  | Returned _ _ => None
  end.

(** Invocation [i] takes its next step. *)
Definition stepCall (root : string + list Node) (i : nat) (s : State)
  : option State :=
  match calls s !! i with
  | None => None
  | Some p =>
      match advance root p (mu s) (metrics s) with
      | None => None
      | Some (p', locked, m) => Some (mkState locked m (<[i := p']> (calls s)))
      end
  end.

(** A schedule names the invocation to step next; a step that cannot be
    taken (a blocked [Lock], a finished invocation) leaves the state as
    it is. *)
Fixpoint run (root : string + list Node) (schedule : list nat) (s : State)
  : State :=
  match schedule with
  | [] => s
  | i :: rest =>
      match stepCall root i s with
      | Some s' => run root rest s'
      | None => run root rest s
      end
  end.

Definition initial (n : nat) (m : Metrics) : State :=
  mkState false m (replicate n AtLock).

(** An invocation holds the mutex from [Lock] to the deferred
    [Unlock]. *)
Definition holds (p : Phase) : bool :=
  match p with
  | AtReadDir | InLoop _ _ | AtReturn _ _ => true
  | AtLock | Returned _ _ => false
  end.

Fixpoint sumOf (f : Phase -> nat) (l : list Phase) : nat :=
  match l with
  | [] => 0
  | p :: rest => f p + sumOf f rest
  end%nat.

(** The number of invocations that hold the mutex. *)
Definition holders (s : State) : nat :=
  sumOf (fun p => if holds p then 1%nat else 0%nat) (calls s).

Definition finished (p : Phase) : bool :=
  match p with Returned _ _ => true | _ => false end.

(** The steps an invocation has still to take. *)
Definition stepsLeft (root : string + list Node) (p : Phase) : nat :=
  match p with
  | AtLock =>
      match root with inl _ => 3 | inr entries => 4 + length entries end
  | AtReadDir =>
      match root with inl _ => 2 | inr entries => 3 + length entries end
  | InLoop entries _ => 2 + length entries
  | AtReturn _ _ => 1
  | Returned _ _ => 0
  end%nat.

Definition stepsToGo (root : string + list Node) (s : State) : nat :=
  sumOf (stepsLeft root) (calls s).
End Index.

End Indexer.

(** ** The walk, told by what it meets *)
Module WalkSpec.
Import GoStrings Walker.

(** A directory the walker prunes: one named for version control or for
    vendored dependencies. *)
Definition prunedName (name : string) : bool :=
  String.eqb name "vendor" || String.eqb name ".git".

(** What a walk meets: a path that is handed to [indexFile], or an error
    of traversal (a directory that cannot be listed, an entry that cannot
    be examined). *)
Inductive item : Type :=
  | Source (path : string)
  | TraversalError (err : string).

Definition sourceAt (path : string) : list item :=
  if String.eqb (Ext path) ".go" then [Source path] else [].

(** The items of the tree [n] at [path], in the order of the walk.  The
    entries of a pruned directory are not among them, at any depth. *)
Fixpoint items (path : string) (n : Node) {struct n} : list item :=
  match n with
  | File _ => sourceAt path
  | Unreadable _ _ e => [TraversalError e]
  | Dir name (Some e) _ => [TraversalError e]
  | Dir name None entries =>
      if prunedName name then []
      else sourceAt path ++
           (fix itemsOf (l : list Node) : list item :=
              match l with
              | [] => []
              | k :: rest => items (Join path (nodeName k)) k ++ itemsOf rest
              end) entries
  end.

Definition itemsOf (path : string) (l : list Node) : list item :=
  flat_map (fun k => items (Join path (nodeName k)) k) l.

Definition isSource (i : item) : bool :=
  match i with Source _ => true | TraversalError _ => false end.

Definition sources (l : list item) : list string :=
  flat_map (fun i => match i with Source p => [p] | TraversalError _ => [] end) l.

(** The tree with every pruned directory emptied. *)
Fixpoint prune (n : Node) : Node :=
  match n with
  | Dir name readErr entries =>
      Dir name readErr (if prunedName name then [] else map prune entries)
  | _ => n
  end.

(** A directory at which the callback answers [SkipDir]. *)
Definition skips (n : Node) : bool :=
  match n with
  | Dir name None _ => prunedName name
  | _ => false
  end.

Section Consume.
Variable indexFile : string -> string -> Z * option error.

(** Handing one path to [indexFile]: the count grows by the functions
    indexed, or the failure is recorded. *)
Definition indexOne (fw : fileWalker) (path : string) : fileWalker :=
  match indexFile (repoName fw) path with
  | (_, Some _) =>
      mkFileWalker (repoName fw) (totalCount fw)
        (indexed fw ++ [path]) (failed fw ++ [path])
  | (fileCount, None) =>
      mkFileWalker (repoName fw) (totalCount fw + fileCount)
        (indexed fw ++ [path]) (failed fw)
  end.

(** Going through the items up to the first error of traversal. *)
Fixpoint consume (l : list item) (fw : fileWalker) : fileWalker * option error :=
  match l with
  | [] => (fw, None)
  | Source p :: rest => consume rest (indexOne fw p)
  | TraversalError e :: _ => (fw, Some (OSError e))
  end.

(** The functions [indexFile] indexes in the paths of [l]. *)
Definition countOf (repo : string) (l : list string) : Z :=
  fold_right (fun p acc =>
                match indexFile repo p with
                | (c, None) => c + acc
                | (_, Some _) => acc
                end) 0 l.
End Consume.

(** The tree of the counterexample to C3: the directory [a] cannot be
    listed, the file [b.go] comes after it. *)
Definition deniedTree : Node :=
  Dir "repo" None [Dir "a" (Some "permission denied") []; File "b.go"].

Definition twoFunctions : string -> string -> Z * option error :=
  fun _ _ => (2, None).

(** C3 as the specification states it: when the root itself can be
    listed, an error of traversal below it costs its own subtree only, so
    the walk does not fail and every source file outside of the failed
    subtrees is handed to the indexer. *)
Definition abortsSubtreeOnly (indexFile : string -> string -> Z * option error)
    (root : string) (n : Node) (fw : fileWalker) : Prop :=
  match n with
  | Dir _ None _ =>
      let r := Walk (walk indexFile) root n fw in
      snd r = None /\
      forall p, In p (sources (items root n)) -> In p (indexed (fst r))
  | _ => True
  end.

(** A tree for the pruning: sources under [.git] and, deeper, under
    [vendor], and sources outside of both. *)
Definition prunedTree : Node :=
  Dir "repo" None
    [Dir ".git" None [File "hook.go"];
     File "main.go";
     Dir "pkg" None
       [File "a.go"; Dir "vendor" None [Dir "dep" None [File "dep.go"]]]].

End WalkSpec.

(** ** The extractor, on a sample *)
Module ParserSpec.
Import GoStrings Parser.

Definition namedDecl : FuncDecl :=
  mkFuncDecl (mkIdent "Foo")
    (mkFuncType (mkFieldList [])
       (Some (mkFieldList [mkField [] "string"; mkField [mkIdent "err"] "error"])))
    13 72.

Definition namedSource : string :=
  "package test func Foo() (string, err error) { if err != nil { return } }".

End ParserSpec.

(** ** The client, told by its log *)
Module ClientSpec.
Import Elasticsearch.

(** The requests sent and the sleeps completed in a stretch of the log. *)
Definition requests (l : list Event) : list Request :=
  flat_map (fun e => match e with EvDo r => [r] | EvSleep _ => [] end) l.




(** An outcome after which the client tries again: a transport error, or
    an answer with a status of 500 or more. *)
Definition retryable (o : Outcome) : bool :=
  match o with
  | Drop _ => true
  | Reply status _ => StatusInternalServerError <=? status
  | Deliver => false
  end.

(** The log of [n] attempts in a row, the first of them numbered
    [attempt], with [backoff] the delay due before the next retry. *)
Fixpoint attemptsTrace (req : Request) (attempt backoff : Z) (n : nat) : list Event :=
  match n with
  | O => []
  | S k =>
      (if 0 <? attempt then [EvSleep backoff] else []) ++
      EvDo req ::
      attemptsTrace req (attempt + 1)
        (if 0 <? attempt then backoff * retryMultiplier else backoff) k
  end.

Definition total (l : list Z) : Z := fold_right Z.add 0 l.


(** What the loop holds in [resp] and [err] after a failed attempt. *)
Definition held (o : Outcome) : option Response * option error :=
  match o with
  | Drop msg => (None, Some (NetError msg))
  | Reply status content => (Some (mkResponse status content), None)
  | Deliver => (None, None)
  end.


(** The requests of the index provisioning. *)
Definition headRequest (es : Client) (c : Context) : Request :=
  withAuth es (mkRequest MethodHead (indexURL es) "" "" None c).

Definition putRequest (es : Client) (c : Context) : Request :=
  withAuth es (mkRequest MethodPut (indexURL es) indexMapping "application/json" None c).




End ClientSpec.

(** ** The index provisioning, on a sample *)
Module IndexSpec.
Import Elasticsearch.

Definition sampleClient : Client := mkClient "http://es:9200" "code" "" "".

Definition anyURL : string -> bool := fun _ => true.

(** A store without indices, reached by a reliable network. *)
Definition emptyStore : World := mkWorld 0 ∅ [] [].

End IndexSpec.

(** ** The storage document format, on a sample *)
Module JsonSpec.
Import Json Elasticsearch.









End JsonSpec.

(** ** CloneRepos, told by its actions *)
Module CloneSpec.
Import Indexer.

(** The repositories synchronized by a stretch of actions, in order, and
    those among them whose synchronization failed. *)
Definition synced (l : list Action) : list string :=
  flat_map (fun a => match a with
                     | Fetch repo _ _ | Clone repo _ _ _ => [repo]
                     | MkdirAll _ _ => []
                     end) l.

Definition failures (l : list Action) : list string :=
  flat_map (fun a => match a with
                     | Fetch repo _ (Some _) | Clone repo _ _ (Some _) => [repo]
                     | _ => []
                     end) l.

(** The repositories warned about in a stretch of the log. *)
Definition warned (l : list LogEntry) : list string :=
  flat_map (fun e => match e with
                     | Warn _ repo _ => [repo]
                     | Info _ _ => []
                     end) l.

(** What [cloneOrUpdateRepo] returns after an action. *)
Definition outcome (a : Action) : option error :=
  match a with
  | Fetch _ _ (Some e) => Some (Wrapf "failed to fetch" e)
  | Clone _ _ _ (Some e) => Some (Wrapf "failed to clone" e)
  | _ => None
  end.

(** Two environments: one in which every git command fails, one in which
    every git command succeeds. *)
Definition allFail : Git.Env :=
  Git.mkEnv [] (fun _ => "")
    (fun _ _ _ => Git.mkRunResult "fatal: could not read from remote" (Some "exit status 128") false).

Definition allSucceed : Git.Env :=
  Git.mkEnv [] (fun _ => "") (fun _ _ _ => Git.mkRunResult "" None false).

Definition sampleConfig : Config :=
  mkConfig "myorg" ["repo1"; "repo2"] "/repos" "git@github.com:{org}/{repo}.git" "" "".


(** A machine with [repo2] checked out already. *)
Definition sampleLocal : Local :=
  mkLocal {[ "/repos/repo2" ]} (fun _ => None) [] [].

End CloneSpec.

(** ** IndexAllRepos, told by what it counts *)
Module RunSpec.
Import GoStrings Walker Indexer.

Section Expected.
Variable indexFile : string -> string -> Z * option error.
Variable config : Config.

(** What one entry of the repos directory adds to the total: the
    functions indexed by the walk of a repository, nothing for an entry
    that is not a directory, has no [.git], or whose walk fails. *)
Definition entryCount (entry : Node) : Z :=
  if negb (nodeIsDir entry) then 0
  else if gitMissing entry then 0
  else
    let repoPath := Join (ReposPath config) (nodeName entry) in
    match walkAndIndexRepo indexFile (Base repoPath) repoPath entry with
    | (count, None) => count
    | (_, Some _) => 0
    end.

Definition countEntries (entries : list Node) : Z :=
  fold_right (fun entry acc => entryCount entry + acc) 0 entries.

(** What an invocation of [IndexAllRepos] has to return: every entry
    counted once. *)
Definition expected (root : string + list Node) : Z * option error :=
  match root with
  | inl e => (0, Some (Wrapf "failed to read repos directory" (OSError e)))
  | inr entries => (countEntries entries, None)
  end.

(** An invocation is on its way to that result. *)
Definition consistent (root : string + list Node) (p : Phase) : Prop :=
  match p with
  | AtLock | AtReadDir => True
  | InLoop rest totalCount =>
      exists done_, root = inr (done_ ++ rest) /\ totalCount = countEntries done_
  | AtReturn totalCount err | Returned totalCount err =>
      (totalCount, err) = expected root
  end.

(** What holds of every state two or more invocations can reach. *)
Definition invariant (root : string + list Node) (s : State) : Prop :=
  holders s = (if mu s then 1%nat else 0%nat) /\
  Forall (consistent root) (calls s).
End Expected.

(** A repos directory with one repository, and two invocations that
    overlap: the second calls [Lock] while the first is in its loop. *)
Definition sampleRoot : string + list Node :=
  inr [Dir "app" None [Dir ".git" None []; File "main.go"]; File "README.md"].

Definition reposConfig : Config := mkConfig "" [] "/repos" "" "" "".

Definition noMetrics : Metrics := mkMetrics 0 ∅ [].

Definition threeFunctions : string -> string -> Z * option error :=
  fun _ _ => (3, None).

Definition overlapping : list nat := [0; 0; 1; 0; 1; 0; 0; 1; 0; 1; 1; 1; 1; 1; 1]%nat.

End RunSpec.

(** ** The network the client can rely on *)
Module NetworkSpec.
Import Elasticsearch ClientSpec.

(** An outcome of a network that loses requests and answers with server
    errors of its own, but never makes up an answer below 500. *)
Definition honest (o : Outcome) : bool :=
  match o with
  | Reply status _ => StatusInternalServerError <=? status
  | Deliver | Drop _ => true
  end.

(** The one change index provisioning makes to a store: the index is
    created, with [indexMapping], where there was none. *)
Definition created (es : Client) (before after : gmap string string) : Prop :=
  after = before \/
  (before !! indexURL es = None /\
   after = <[indexURL es := indexMapping]> before).

(** A request whose context is done 200ms from the start of the clock, and
    a world in which the first answer is a 503. *)
Definition hurried : Request :=
  mkRequest MethodPost "http://es:9200/code/_doc" "{}" "application/json" None
    (mkContext (Some (200 * Millisecond))).

Definition unavailable : World :=
  mkWorld 0 ∅ [Reply 503 "unavailable"; Reply 200 "ok"] [].

(** A store on a network that loses the first creation request and answers
    the second with a 502. *)
Definition lossy : World :=
  mkWorld 0 ∅ [Deliver; Drop "connection reset"; Reply 502 "bad gateway"] [].

End NetworkSpec.

(** ** Package elasticsearch: the calls of client.go *)
Module ClientCalls.
Import Elasticsearch.

(** [es.metrics.ESRequests.WithLabelValues(operation, status).Inc()]: the
    increments of the request counter, in the order they are made. *)
Definition Counters : Type := list (string * string).

Definition Inc (operation status : string) (m : Counters) : Counters :=
  m ++ [(operation, status)].

(** SearchResponse represents the Elasticsearch search response:
    [Hits] is the slice [Hits.Hits]. *)
Record Hit : Type := mkHit { Source : CodeDocument }.

Record SearchResponse : Type := mkSearchResponse { Hits : slice Hit }.




Section Calls.
(** Which URLs parse is left to package net/url, the instants package time
    can format to package time, and the text of a JSON value, written by
    [json.Marshal] and read by [json.Decoder], to package encoding/json. *)
Variable parses : string -> bool.
Variable formatRFC3339 : Time -> option string.
Variable encode : Json.value -> string.
Variable decode : string -> error + SearchResponse.

(** Ping verifies that Elasticsearch is reachable. *)
Definition Ping (es : Client) (w : World) : World * option error :=
  match NewRequestWithContext parses Background MethodGet (host es) "" with
  | inl e => (w, Some e)
  | inr req =>
      let req := withAuth es req in
      match Do req w with
      | (w, inl e) => (w, Some e)
      | (w, inr resp) =>
          if StatusMultipleChoices <=? StatusCode resp
          then (w, Some (StatusError "elasticsearch returned status" (StatusCode resp)))
          else (w, None)
      end
  end.

(** NewClient creates a new Elasticsearch client and verifies
    connectivity. *)
Definition NewClient (host index username password : string) (w : World)
  : World * (option Client * option error) :=
  let client := mkClient host index username password in
  match Ping client w with
  | (w, Some e) => (w, (None, Some (Wrapf "failed to connect to Elasticsearch" e)))
  | (w, None) => (w, (Some client, None))
  end.

Definition docURL (es : Client) : string :=
  host es +:+ "/" +:+ index es +:+ "/_doc".


(** IndexDocument indexes a single code document into Elasticsearch.  As
    in [EnsureIndex], the deferred [resp.Body.Close()] needs a response,
    which [doRequestWithRetry] returns whenever it returns no error. *)
Definition IndexDocument (es : Client) (c : Context) (doc : CodeDocument)
    (w : World) (m : Counters) : World * Counters * option error :=
  match Marshal formatRFC3339 doc with
  | inl e => (w, m, Some (Wrapf "failed to marshal document" e))
  | inr data =>
      match NewRequestWithContext parses c MethodPost (docURL es) (encode data) with
      | inl e => (w, m, Some (Wrapf "failed to create request" e))
      | inr req =>
          let req := withAuth es (SetContentType "application/json" req) in
          match doRequestWithRetry req w with
          | (w, (_, Some e)) =>
              (w, Inc "index" "error" m, Some (Wrapf "failed to send request" e))
          | (w, (None, None)) => (w, m, None)
          | (w, (Some resp, None)) =>
              if StatusMultipleChoices <=? StatusCode resp
              then (w, Inc "index" "error" m,
                    Some (StatusError "elasticsearch error" (StatusCode resp)))
              else (w, Inc "index" "success" m, None)
          end
      end
  end.

End Calls.

End ClientCalls.

Module CallsSpec.
Import Elasticsearch ClientCalls ClientSpec.

(** The requests of the calls. *)
Definition pingRequest (es : Client) : Request :=
  withAuth es (mkRequest MethodGet (host es) "" "" None Background).

Definition postRequest (es : Client) (c : Context) (u content : string) : Request :=
  withAuth es (mkRequest MethodPost u content "application/json" None c).

(** A server that is not ready at the first request and is afterwards. *)
Definition starting : World :=
  mkWorld 0 ∅ [Reply 503 "starting"; Reply 200 "ok"] [].

End CallsSpec.

(** ** One file, told by its declarations *)
Module FileSpec.
Import GoStrings Elasticsearch Parser.



(** The visitor [indexFile] starts with. *)
Definition visitorOf (repo filePath content : string) (node : File) : astVisitor :=
  mkAstVisitor content repo filePath (IdentName (PackageName node))
    (collectImports (FileImports node) None) 0 [].

(** An import path as the parser hands it over: the literal, with its
    quotes. *)
Definition quoted (path : string) : string := dquote +:+ path +:+ dquote.

Definition noQuote (s : string) : bool :=
  forallb (fun a => negb (Ascii.eqb a "034"%char)) (list_ascii_of_string s).

(** A file of two functions, and a store that refuses the functions named
    [Bar]. *)
Definition twoDecls : File :=
  mkFile (mkIdent "test") [mkImportSpec (quoted "fmt")]
    [mkFuncDecl (mkIdent "Foo") (mkFuncType (mkFieldList []) None) 13 26;
     mkFuncDecl (mkIdent "Bar") (mkFuncType (mkFieldList []) None) 27 40].

Definition twoSource : string := "package test func Foo() {} func Bar() {}".


End FileSpec.

(** ** The walk, told by what it hands over *)
Module HandedSpec.
Import GoStrings Walker WalkSpec.

(** [indexFile] fails on the path. *)
Definition fails (indexFile : string -> string -> Z * option error)
    (repo path : string) : bool :=
  match indexFile repo path with
  | (_, Some _) => true
  | (_, None) => false
  end.

Definition isGo (path : string) : bool := String.eqb (Ext path) ".go".

(** The errors of traversal among the items. *)
Definition traversalErrors (l : list item) : list string :=
  flat_map (fun i => match i with TraversalError e => [e] | Source _ => [] end) l.

(** A repository with a directory named like a source file, and an
    [indexFile] that fails on every path that is not a file of its
    own. *)
Definition generatedTree : Node :=
  Dir "repo" None [Dir "gen.go" None [File "types.go"]; File "notes.md"].

Definition failsOnDirs : string -> string -> Z * option error :=
  fun _ path =>
    if String.eqb path "/repos/repo/gen.go"
    then (0, Some (Wrapf "failed to parse file" (OSError "is a directory")))
    else (1, None).

End HandedSpec.

(** ** The metrics of the indexer, told by the repos directory *)
Module MetricsSpec.
Import GoStrings Walker Indexer WalkSpec.

(** The functions counted by [FunctionsIndexed], all repositories
    together. *)
Definition sumValues (fm : gmap string Z) : Z :=
  map_fold (fun _ v acc => v + acc) 0 fm.

Section Outcome.
Variable indexFile : string -> string -> Z * option error.
Variable config : Config.

(** The error of a directory entry of the repos directory: none without
    a [.git], otherwise that of the walk. *)
Definition repoError (entry : Node) : option error :=
  if gitMissing entry then None
  else
    let repoPath := Join (ReposPath config) (nodeName entry) in
    snd (walkAndIndexRepo indexFile (Base repoPath) repoPath entry).

(** The entries counted by [ReposIndexed], and those logged with their
    error. *)
Definition counted (entry : Node) : bool :=
  nodeIsDir entry && match repoError entry with None => true | Some _ => false end.

Definition errorsOf (entries : list Node) : list (string * error) :=
  flat_map (fun entry =>
              if nodeIsDir entry
              then match repoError entry with
                   | Some e => [(nodeName entry, e)]
                   | None => []
                   end
              else []) entries.

(** What an entry adds to its [FunctionsIndexed] counter, if it adds to
    it: the functions indexed by a walk that did not fail. *)
Definition added (entry : Node) : option Z :=
  if nodeIsDir entry && negb (gitMissing entry)
  then
    let repoPath := Join (ReposPath config) (nodeName entry) in
    match walkAndIndexRepo indexFile (Base repoPath) repoPath entry with
    | (count, None) => Some count
    | (_, Some _) => None
    end
  else None.

Variable root : string + list Node.

(** What is left to do to the metrics by an invocation in phase [p]. *)
Definition finish (p : Phase) (m : Metrics) : Metrics :=
  match p with
  | AtReadDir => fst (indexAll indexFile config root m)
  | InLoop rest totalCount => fst (indexEntries indexFile config rest totalCount m)
  | AtLock | AtReturn _ _ | Returned _ _ => m
  end.

Definition started (p : Phase) : nat :=
  match p with AtLock => 0%nat | _ => 1%nat end.

(** The metrics once the invocation that holds the mutex, if there is
    one, has returned. *)
Definition pending (s : State) : Metrics :=
  match List.find holds (calls s) with
  | Some p => finish p (metrics s)
  | None => metrics s
  end.

(** The metrics after [n] invocations, one after the other. *)
Definition sequential (n : nat) (m : Metrics) : Metrics :=
  Nat.iter n (fun m => fst (indexAll indexFile config root m)) m.

(** The metrics are those of the invocations that have started, one
    after the other, up to what the holder of the mutex has still to
    do; [m0] are the metrics before the first of them. *)
Definition serial (m0 : Metrics) (s : State) : Prop :=
  pending s = sequential (sumOf started (calls s)) m0.
End Outcome.

(** The name of a directory entry: not empty, and without a
    separator. *)
Definition plainName (name : string) : bool :=
  negb (String.eqb name "")
  && forallb (fun a => negb (Ascii.eqb a slash)) (list_ascii_of_string name).

(** A repos directory with a repository whose second entry cannot be
    listed. *)
Definition brokenRepo : Node :=
  Dir "app" None
    [Dir ".git" None []; File "a.go"; Dir "b" (Some "permission denied") [];
     File "c.go"].

End MetricsSpec.

(** ** The checkouts, told by the configuration *)
Module CheckoutSpec.
Import GoStrings Indexer CloneSpec.

(** The directory a repository is cloned to. *)
Definition targetOf (config : Config) (repo : string) : string :=
  Join (ReposPath config) repo.

Definition isFetch (a : Action) : bool :=
  match a with Fetch _ _ _ => true | _ => false end.

(** The targets of the clones among the actions. *)
Definition cloneTargets (l : list Action) : list string :=
  flat_map (fun a => match a with
                     | Clone _ _ target _ => [target]
                     | _ => []
                     end) l.

(** The actions of [after] that come after those of [before]. *)
Definition newActions (before after : Local) : list Action :=
  drop (length (actions before)) (actions after).

End CheckoutSpec.

(** ** Repository URLs and the index mapping, told by their text *)
Module TextSpec.
Import GoStrings Json Elasticsearch.

(** The URL templates of the deployment: over SSH and over HTTPS. *)
Definition sshFormat : string := "git@github.com:{org}/{repo}.git".

Definition httpsFormat : string := "https://github.com/{org}/{repo}.git".

(** The index mapping declares the field [k] with a type that takes the
    JSON value [v]: [boolean] for a boolean; [keyword], [text] or [date]
    for a string; [keyword] for an array of strings or a null. *)
Definition mapped (k : string) (v : value) : bool :=
  match v with
  | JBool _ => Contains indexMapping (property k "boolean")
  | JString _ =>
      Contains indexMapping (property k "keyword")
      || Contains indexMapping (property k "date")
      || Contains indexMapping (q k +:+ ": {" +:+ q "type" +:+ ": " +:+ q "text")
  | JNull | JArray _ => Contains indexMapping (property k "keyword")
  | JNumber _ | JObject _ => false
  end.

End TextSpec.

(** ** Package server: the search endpoint *)
Module Server.
Import Elasticsearch ClientCalls.

(** SearchRequest represents a search query request. *)
Record SearchRequest : Type := mkSearchRequest { Query : string; Limit : Z }.





Section Handlers.
Variable parses : string -> bool.
Variable encode : Json.value -> string.
Variable decode : string -> error + SearchResponse.
(** [json.NewDecoder(r.Body).Decode(&req)], left to package
    encoding/json. *)
Variable decodeRequest : string -> error + SearchRequest.

End Handlers.

End Server.

(** * Properties *)

(** ** The tree walk *)
Module WalkProofs.
Import GoStrings Walker WalkSpec.

Lemma Node_forall_ind (P : Node -> Prop) :
  (forall name, P (File name)) ->
  (forall name d e, P (Unreadable name d e)) ->
  (forall name readErr entries, Forall P entries -> P (Dir name readErr entries)) ->
  forall n, P n.
Proof.
  intros HF HU HD. fix IH 1.
  intros [name|name readErr entries|name d e]; [apply HF | | apply HU].
  apply HD. induction entries as [|k rest IHrest]; constructor; [apply IH | exact IHrest].
Qed.

Lemma items_Dir path name entries :
  items path (Dir name None entries) =
  if prunedName name then [] else sourceAt path ++ itemsOf path entries.
Proof.
  simpl. destruct (prunedName name); reflexivity.
Qed.

Section Refinement.
Variable indexFile : string -> string -> Z * option error.

Lemma consume_app l1 l2 fw :
  consume indexFile (l1 ++ l2) fw =
  match consume indexFile l1 fw with
  | (fw', None) => consume indexFile l2 fw'
  | r => r
  end.
Proof.
  revert fw. induction l1 as [|[p|e] l1 IH]; intros fw; simpl.
  - destruct (consume indexFile l2 fw) as [fw' [e|]]; reflexivity.
  - apply IH.
  - reflexivity.
Qed.

Lemma consume_not_SkipDir l fw fw' e :
  consume indexFile l fw = (fw', Some e) -> is_SkipDir e = false.
Proof.
  revert fw. induction l as [|[p|e'] l IH]; intros fw; simpl; intros H.
  - discriminate.
  - eapply IH. exact H.
  - injection H as _ <-. reflexivity.
Qed.

Lemma walk_source fw path name isdir :
  isdir && prunedName name = false ->
  walk indexFile fw path (Found (mkFileInfo name isdir)) =
  consume indexFile (sourceAt path) fw.
Proof.
  intros H. unfold walk, sourceAt. cbn [IsDir InfoName].
  unfold prunedName in H. rewrite H.
  destruct (String.eqb (Ext path) ".go"); simpl; [|reflexivity].
  unfold indexOne. destruct (indexFile (repoName fw) path) as [c [e|]]; reflexivity.
Qed.

Lemma walk_pruned fw path name :
  prunedName name = true ->
  walk indexFile fw path (Found (mkFileInfo name true)) = (fw, Some SkipDir).
Proof.
  intros H. unfold walk. cbn [IsDir InfoName]. unfold prunedName in H.
  rewrite H. reflexivity.
Qed.

Lemma walkNode_items n : forall path fw,
  walkNode (walk indexFile) path n fw =
  if skips n then (fw, Some SkipDir) else consume indexFile (items path n) fw.
Proof.
  induction n as [name|name d e|name readErr entries IH] using Node_forall_ind;
    intros path fw.
  - cbn [walkNode skips items]. apply walk_source. reflexivity.
  - reflexivity.
  - destruct readErr as [e|].
    + reflexivity.
    + rewrite items_Dir. cbn [skips walkNode].
      destruct (prunedName name) eqn:Hp.
      * rewrite walk_pruned by exact Hp. reflexivity.
      * rewrite walk_source by (simpl; exact Hp).
        rewrite consume_app.
        destruct (consume indexFile (sourceAt path) fw) as [fw1 [e|]] eqn:Hc;
          [reflexivity|].
        clear Hc. revert fw1.
        induction IH as [|k rest Hk Hrest IHrest]; intros fw1; [reflexivity|].
        unfold itemsOf. cbn [flat_map]. rewrite consume_app.
        fold (itemsOf path rest).
        destruct k as [kn|kn kerr kentries|kn kd ke].
        -- rewrite Hk. cbn [skips].
           destruct (consume indexFile (items (Join path (nodeName (File kn))) (File kn)) fw1)
             as [fw2 [e|]] eqn:Hc.
           ++ reflexivity.
           ++ apply IHrest.
        -- rewrite Hk. destruct (skips (Dir kn kerr kentries)) eqn:Hs.
           ++ destruct kerr; [discriminate Hs|]. rewrite items_Dir.
              cbn [skips] in Hs. rewrite Hs. cbn [nodeIsDir negb is_SkipDir orb consume].
              apply IHrest.
           ++ destruct (consume indexFile _ fw1) as [fw2 [e|]] eqn:Hc.
              ** rewrite (consume_not_SkipDir _ _ _ _ Hc). reflexivity.
              ** apply IHrest.
        -- reflexivity.
Qed.
(** [filepath.Walk] with the walker's callback goes through the items
    of the tree in order and stops at the first error of traversal. *)
Lemma Walk_items root n fw :
  Walk (walk indexFile) root n fw = consume indexFile (items root n) fw.
Proof.
  unfold Walk.
  assert (Hn : walkNode (walk indexFile) root n fw =
               if skips n then (fw, Some SkipDir)
               else consume indexFile (items root n) fw)
    by apply walkNode_items.
  destruct n as [name|name readErr entries|name d e].
  - rewrite Hn. cbn [skips].
    destruct (consume indexFile _ fw) as [fw' [err|]] eqn:Hc; [|reflexivity].
    pose proof (consume_not_SkipDir _ _ _ _ Hc) as Hs.
    destruct err; first [discriminate Hs | reflexivity].
  - rewrite Hn. destruct (skips (Dir name readErr entries)) eqn:Hs.
    + destruct readErr; [discriminate Hs|]. rewrite items_Dir.
      cbn [skips] in Hs. rewrite Hs. reflexivity.
    + destruct (consume indexFile _ fw) as [fw' [err|]] eqn:Hc; [|reflexivity].
      pose proof (consume_not_SkipDir _ _ _ _ Hc) as Hk.
      destruct err; first [discriminate Hk | reflexivity].
  - reflexivity.
Qed.

Lemma consume_sources l : forall fw,
  forallb isSource l = true ->
  exists fw',
    consume indexFile l fw = (fw', None) /\
    repoName fw' = repoName fw /\
    indexed fw' = indexed fw ++ sources l /\
    totalCount fw' = totalCount fw + countOf indexFile (repoName fw) (sources l).
Proof.
  induction l as [|[p|e] l IH]; intros fw Hl.
  - exists fw. simpl. rewrite app_nil_r. repeat split; lia.
  - simpl in Hl. destruct (IH (indexOne indexFile fw p) Hl)
      as (fw' & Hc & Hr & Hi & Ht).
    exists fw'. cbn [consume sources flat_map countOf fold_right app].
    fold (sources l). fold (countOf indexFile (repoName fw) (sources l)).
    rewrite Hc, Hr, Hi, Ht. unfold indexOne.
    destruct (indexFile (repoName fw) p) as [c [err|]];
      cbn [repoName indexed totalCount];
      rewrite <- app_assoc; repeat split; simpl; lia.
  - discriminate Hl.
Qed.

Lemma nodeName_prune n : nodeName (prune n) = nodeName n.
Proof. destruct n; reflexivity. Qed.

Lemma items_prune n : forall path, items path (prune n) = items path n.
Proof.
  induction n as [name|name d e|name readErr entries IH] using Node_forall_ind;
    intros path; [reflexivity | reflexivity |].
  cbn [prune]. destruct readErr as [e|]; [reflexivity|].
  rewrite !items_Dir. destruct (prunedName name); [reflexivity|].
  f_equal. unfold itemsOf.
  induction IH as [|k rest Hk Hrest IHrest]; [reflexivity|].
  cbn [map flat_map]. rewrite nodeName_prune, Hk, IHrest. reflexivity.
Qed.
End Refinement.

(** C3, counterexample: with [a] unreadable, the walk of [deniedTree]
    fails with that error and [b.go], which lies outside of [a], is never
    handed to the indexer. *)
Lemma abortsSubtreeOnly_counterexample :
  Walk (walk twoFunctions) "/repos/repo" deniedTree (mkFileWalker "repo" 0 [] []) =
    (mkFileWalker "repo" 0 [] [], Some (OSError "permission denied")) /\
  In "/repos/repo/b.go" (sources (items "/repos/repo" deniedTree)) /\
  ~ abortsSubtreeOnly twoFunctions "/repos/repo" deniedTree
      (mkFileWalker "repo" 0 [] []).
Proof.
  split; [reflexivity|]. split; [left; reflexivity|].
  unfold abortsSubtreeOnly, deniedTree. intros [Herr _].
  vm_compute in Herr. discriminate Herr.
Qed.

(** C3, as amended: an error of traversal at any path the walk reaches,
    the root or below it, aborts the whole walk.  The walk fails with that
    error; the paths met before it have been handed to the indexer and
    stay counted in the walker; no path after it in the order of the walk,
    in a sibling or a later directory, is visited.  A walk that meets no
    error of traversal does not fail. *)
Theorem traversal_error_aborts_walk :
  forall (indexFile : string -> string -> Z * option error)
         (root : string) (n : Node) (fw : fileWalker),
    (forall before e after,
        items root n = before ++ TraversalError e :: after ->
        forallb isSource before = true ->
        exists fw',
          Walk (walk indexFile) root n fw = (fw', Some (OSError e)) /\
          indexed fw' = indexed fw ++ sources before /\
          totalCount fw' =
            totalCount fw + countOf indexFile (repoName fw) (sources before)) /\
    (forallb isSource (items root n) = true ->
     snd (Walk (walk indexFile) root n fw) = None).
Proof.
  intros indexFile root n fw. split.
  - intros before e after Hitems Hbefore.
    destruct (consume_sources indexFile before fw Hbefore)
      as (fw' & Hc & _ & Hi & Ht).
    exists fw'. rewrite Walk_items, Hitems, consume_app, Hc. auto.
  - intros Hall.
    destruct (consume_sources indexFile _ fw Hall) as (fw' & Hc & _).
    rewrite Walk_items, Hc. reflexivity.
Qed.

Lemma traversal_error_aborts_walk_witness :
  exists fw',
    Walk (walk twoFunctions) "/repos/repo" deniedTree (mkFileWalker "repo" 0 [] [])
      = (fw', Some (OSError "permission denied")) /\
    indexed fw' = [] /\ totalCount fw' = 0.
Proof.
  destruct (proj1 (traversal_error_aborts_walk twoFunctions "/repos/repo" deniedTree
                     (mkFileWalker "repo" 0 [] []))
              [] "permission denied" [Source "/repos/repo/b.go"]
              eq_refl eq_refl) as (fw' & Hw & Hi & Ht).
  exists fw'. split; [exact Hw|]. split; [exact Hi | exact Ht].
Defined.

(** C4: a directory named [.git] or [vendor] is pruned with all that lies
    below it, at any depth.  At such a directory the walk leaves the walker
    as it is and skips the subtree; the whole walk is the walk of the tree
    with every such directory emptied; and, when nothing fails to be
    traversed, the paths handed to the indexer are exactly the source
    paths outside of such directories, all of them, and the count is the
    number of functions indexed in them. *)
Theorem pruned_subtrees_not_indexed :
  forall (indexFile : string -> string -> Z * option error)
         (root : string) (n : Node) (fw : fileWalker),
    (forall path name entries,
        prunedName name = true ->
        walkNode (walk indexFile) path (Dir name None entries) fw = (fw, Some SkipDir) /\
        Walk (walk indexFile) path (Dir name None entries) fw = (fw, None)) /\
    Walk (walk indexFile) root n fw = Walk (walk indexFile) root (prune n) fw /\
    (forallb isSource (items root n) = true ->
     exists fw',
       Walk (walk indexFile) root n fw = (fw', None) /\
       indexed fw' = indexed fw ++ sources (items root n) /\
       totalCount fw' =
         totalCount fw + countOf indexFile (repoName fw) (sources (items root n))).
Proof.
  intros indexFile root n fw. split; [|split].
  - intros path name entries Hp. split.
    + rewrite walkNode_items. cbn [skips]. rewrite Hp. reflexivity.
    + rewrite Walk_items, items_Dir, Hp. reflexivity.
  - rewrite !Walk_items, items_prune. reflexivity.
  - intros Hall.
    destruct (consume_sources indexFile _ fw Hall) as (fw' & Hc & _ & Hi & Ht).
    exists fw'. rewrite Walk_items. auto.
Qed.

Lemma pruned_subtrees_not_indexed_witness :
  exists fw',
    Walk (walk twoFunctions) "/repos/repo" prunedTree (mkFileWalker "repo" 0 [] [])
      = (fw', None) /\
    indexed fw' = ["/repos/repo/main.go"; "/repos/repo/pkg/a.go"] /\
    totalCount fw' = 4.
Proof.
  destruct (proj2 (proj2 (pruned_subtrees_not_indexed twoFunctions "/repos/repo"
                            prunedTree (mkFileWalker "repo" 0 [] [])))
              eq_refl) as (fw' & Hw & Hi & Ht).
  exists fw'. split; [exact Hw|]. split; [exact Hi | exact Ht].
Defined.
End WalkProofs.

(** ** The extractor *)
Module ParserProofs.
Import GoStrings Elasticsearch Parser ParserSpec.

Lemma append_String a p rest : String a p +:+ rest = String a (p +:+ rest).
Proof. reflexivity. Qed.

Lemma append_Empty rest : EmptyString +:+ rest = rest.
Proof. reflexivity. Qed.

Lemma HasPrefix_spec prefix : forall s,
  HasPrefix s prefix = true <-> exists rest, s = prefix +:+ rest.
Proof.
  induction prefix as [|a p IH]; intros s.
  - split; [intros _; exists s; reflexivity | intros _; destruct s; reflexivity].
  - destruct s as [|b s]; simpl.
    + split; [discriminate | intros [rest H]; discriminate H].
    + destruct (Ascii.eqb_spec a b) as [->|Hne].
      * rewrite IH. split; intros [rest H]; exists rest;
          rewrite append_String in *; congruence.
      * split; [discriminate | intros [rest H]; rewrite append_String in H; congruence].
Qed.

Lemma Index_lower s substr : -1 <= Index s substr.
Proof.
  induction s as [|c s IH]; cbn [Index].
  - destruct (HasPrefix EmptyString substr); lia.
  - destruct (HasPrefix (String c s) substr); [lia|].
    destruct (Z.ltb_spec (Index s substr) 0); lia.
Qed.

Lemma Index_spec substr : forall s,
  0 <= Index s substr <-> exists before rest, s = before +:+ substr +:+ rest.
Proof.
  induction s as [|c s IH].
  - cbn [Index]. destruct (HasPrefix EmptyString substr) eqn:Hp.
    + apply HasPrefix_spec in Hp as [rest Hrest].
      split; [intros _; exists EmptyString, rest; exact Hrest | lia].
    + split; [lia|]. intros (before & rest & H).
      destruct before; [|discriminate H]. rewrite append_Empty in H.
      assert (HasPrefix EmptyString substr = true)
        by (apply HasPrefix_spec; exists rest; exact H).
      congruence.
  - cbn [Index]. destruct (HasPrefix (String c s) substr) eqn:Hp.
    + apply HasPrefix_spec in Hp as [rest Hrest].
      split; [intros _; exists EmptyString, rest; exact Hrest | lia].
    + pose proof (Index_lower s substr) as Hlow.
      destruct (Z.ltb_spec (Index s substr) 0) as [Hneg|Hpos].
      * split; [lia|]. intros (before & rest & H).
        destruct before as [|b before];
          [rewrite append_Empty in H | rewrite append_String in H].
        -- assert (HasPrefix (String c s) substr = true)
             by (apply HasPrefix_spec; exists rest; exact H).
           congruence.
        -- injection H as _ H.
           assert (0 <= Index s substr) by (apply IH; eauto). lia.
      * split; [|lia]. intros _. apply IH in Hpos as (before & rest & H).
        exists (String c before), rest. rewrite append_String, H. reflexivity.
Qed.

Lemma Contains_spec s substr :
  Contains s substr = true <-> exists before rest, s = before +:+ substr +:+ rest.
Proof. unfold Contains. rewrite Z.leb_le. apply Index_spec. Qed.

Lemma hasNamedReturns_loop_spec l :
  hasNamedReturns_loop l = true <-> exists field, In field l /\ Names field <> [].
Proof.
  induction l as [|f l IH]; simpl.
  - split; [discriminate | intros (field & [] & _)].
  - destruct (Names f) as [|x names] eqn:Hn; simpl.
    + rewrite IH. split.
      * intros (field & Hin & Hne). exists field. auto.
      * intros (field & [<-|Hin] & Hne); [congruence | exists field; auto].
    + split; [|reflexivity]. intros _. exists f. split; [auto | congruence].
Qed.

Lemma extractFunctionDoc_total funcDecl content repo filePath pkgName imports now :
  0 <= PosOffset funcDecl <= EndOffset funcDecl ->
  EndOffset funcDecl <= len content ->
  exists code,
    slice_string content (PosOffset funcDecl) (EndOffset funcDecl) = Some code /\
    extractFunctionDoc funcDecl content repo filePath pkgName imports now =
    Some (mkCodeDocument repo filePath (IdentName (Name funcDecl)) code
            (hasNamedReturns funcDecl) (Contains code "if err != nil")
            pkgName imports false now).
Proof.
  intros [H0 H1] H2. unfold extractFunctionDoc, slice_string.
  assert (Hb : (0 <=? PosOffset funcDecl) && (PosOffset funcDecl <=? EndOffset funcDecl)
               && (EndOffset funcDecl <=? len content) = true).
  { rewrite !andb_true_iff, !Z.leb_le. auto. }
  rewrite Hb. eexists. split; reflexivity.
Qed.

(** C6: the record extracted from a function declaration has its "named
    returns" flag set exactly when some entry of the declaration's result
    list carries a name; without a result list, or with unnamed results
    only, the flag is false. *)
Theorem named_returns_flag :
  forall (funcDecl : FuncDecl) (content repo filePath pkgName : string)
         (imports : slice string) (now : Time),
    0 <= PosOffset funcDecl <= EndOffset funcDecl ->
    EndOffset funcDecl <= len content ->
    exists doc,
      extractFunctionDoc funcDecl content repo filePath pkgName imports now = Some doc /\
      (HasNamedReturns doc = true <->
       exists results field,
         Results (Typ funcDecl) = Some results /\
         In field (Fields results) /\ Names field <> []) /\
      (Results (Typ funcDecl) = None -> HasNamedReturns doc = false) /\
      (forall results,
          Results (Typ funcDecl) = Some results ->
          (forall field, In field (Fields results) -> Names field = []) ->
          HasNamedReturns doc = false).
Proof.
  intros funcDecl content repo filePath pkgName imports now Hpos Hend.
  destruct (extractFunctionDoc_total funcDecl content repo filePath pkgName imports now
              Hpos Hend) as (code & _ & Hdoc).
  eexists. split; [exact Hdoc|]. cbn [HasNamedReturns].
  assert (Hiff : hasNamedReturns funcDecl = true <->
                 exists results field,
                   Results (Typ funcDecl) = Some results /\
                   In field (Fields results) /\ Names field <> []).
  { unfold hasNamedReturns. destruct (Results (Typ funcDecl)) as [results|].
    - rewrite hasNamedReturns_loop_spec. split.
      + intros (field & Hin & Hne). exists results, field. auto.
      + intros (r & field & Hr & Hin & Hne). injection Hr as <-. exists field. auto.
    - split; [discriminate | intros (r & field & Hr & _); discriminate Hr]. }
  split; [exact Hiff|]. split.
  - intros Hnone. apply not_true_is_false. rewrite Hiff.
    intros (r & field & Hr & _). congruence.
  - intros results Hres Hall. apply not_true_is_false. rewrite Hiff.
    intros (r & field & Hr & Hin & Hne). rewrite Hres in Hr. injection Hr as <-.
    apply Hne, Hall, Hin.
Qed.

Lemma named_returns_flag_witness :
  exists doc,
    extractFunctionDoc namedDecl namedSource "repo" "a.go" "test" None
      (mkTime 0 0 None) = Some doc /\
    HasNamedReturns doc = true.
Proof.
  destruct (named_returns_flag namedDecl namedSource "repo" "a.go" "test" None
              (mkTime 0 0 None))
    as (doc & Hdoc & Hiff & _).
  - vm_compute. split; discriminate.
  - vm_compute. discriminate.
  - exists doc. split; [exact Hdoc|]. apply Hiff.
    exists (mkFieldList [mkField [] "string"; mkField [mkIdent "err"] "error"]),
           (mkField [mkIdent "err"] "error").
    split; [reflexivity|]. split; [right; left; reflexivity | discriminate].
Defined.

(** C7: the record extracted from a function declaration has its "error
    handling" flag set exactly when the text of the function, the bytes of
    the file from the declaration's start to its end, holds the phrase
    [if err != nil] literally; any other wording leaves it false. *)
Theorem error_handling_flag :
  forall (funcDecl : FuncDecl) (content repo filePath pkgName : string)
         (imports : slice string) (now : Time),
    0 <= PosOffset funcDecl <= EndOffset funcDecl ->
    EndOffset funcDecl <= len content ->
    exists doc,
      extractFunctionDoc funcDecl content repo filePath pkgName imports now = Some doc /\
      slice_string content (PosOffset funcDecl) (EndOffset funcDecl) = Some (Code doc) /\
      (HasErrorHandling doc = true <->
       exists before rest, Code doc = before +:+ "if err != nil" +:+ rest).
Proof.
  intros funcDecl content repo filePath pkgName imports now Hpos Hend.
  destruct (extractFunctionDoc_total funcDecl content repo filePath pkgName imports now
              Hpos Hend) as (code & Hcode & Hdoc).
  eexists. split; [exact Hdoc|]. cbn [Code HasErrorHandling].
  split; [exact Hcode | apply Contains_spec].
Qed.

Lemma error_handling_flag_witness :
  exists doc,
    extractFunctionDoc namedDecl namedSource "repo" "a.go" "test" None
      (mkTime 0 0 None) = Some doc /\
    Code doc = "func Foo() (string, err error) { if err != nil { return } }" /\
    HasErrorHandling doc = true.
Proof.
  destruct (error_handling_flag namedDecl namedSource "repo" "a.go" "test" None
              (mkTime 0 0 None))
    as (doc & Hdoc & Hcode & Hiff).
  - vm_compute. split; discriminate.
  - vm_compute. discriminate.
  - exists doc. split; [exact Hdoc|].
    assert (Hc : Some (Code doc) =
                 Some "func Foo() (string, err error) { if err != nil { return } }")
      by (rewrite <- Hcode; reflexivity).
    injection Hc as Hc.
    split; [exact Hc|]. apply Hiff. rewrite Hc.
    exists "func Foo() (string, err error) { ", " { return } }". reflexivity.
Defined.
End ParserProofs.

(** ** The retry loop *)
Module ClientProofs.
Import Elasticsearch ClientSpec.











Section Loop.
Variable req : Request.





End Loop.


(** An answer below 500 to the first attempt is what the call returns:
    one request, no sleep. *)
Lemma doRequestWithRetry_at_once req w w1 resp :
  Do req w = (w1, inr resp) ->
  StatusCode resp < StatusInternalServerError ->
  doRequestWithRetry req w = (w1, (Some resp, None)).
Proof.
  intros HDo Hstatus. unfold doRequestWithRetry.
  change (Z.to_nat (maxRetries + 1)) with 4%nat. cbn [retryLoop].
  change (0 <? 0) with false. cbv iota. rewrite HDo.
  apply Z.ltb_lt in Hstatus. rewrite Hstatus. reflexivity.
Qed.

(** The call never returns a nil response with a nil error. *)
Lemma doRequestWithRetry_some req w :
  snd (doRequestWithRetry req w) <> (None, None).
Proof.
  unfold doRequestWithRetry. change (Z.to_nat (maxRetries + 1)) with 4%nat.
  unfold snd. assert (Hgen : forall left w' backoff attempt resp err,
             (resp, err) <> (None, None) ->
             snd (retryLoop left attempt backoff req resp err w') <> (None, None)).
  { induction left as [|n IH]; intros w' backoff attempt resp err Hst.
    - cbn [retryLoop]. destruct err as [e|], resp as [r|]; simpl; congruence.
    - cbn [retryLoop].
      destruct (0 <? attempt).
      + destruct (wait (ctx req) backoff w') as [w1 [|]]; [simpl; congruence|].
        destruct (Do req w1) as [w2 [e|r]]; [apply IH; congruence|].
        destruct (StatusCode r <? StatusInternalServerError);
          [simpl; congruence | apply IH; congruence].
      + destruct (Do req w') as [w2 [e|r]]; [apply IH; congruence|].
        destruct (StatusCode r <? StatusInternalServerError);
          [simpl; congruence | apply IH; congruence]. }
  generalize 3%nat. intros n. cbn [retryLoop]. change (0 <? 0) with false. cbv iota.
  destruct (Do req w) as [w2 [e|r]]; [apply Hgen; congruence|].
  destruct (StatusCode r <? StatusInternalServerError);
    [simpl; congruence | apply Hgen; congruence].
Qed.


End ClientProofs.

(** ** The index provisioning *)
Module IndexProofs.
Import Elasticsearch ClientSpec IndexSpec ClientProofs.

Lemma method_withAuth es r : method (withAuth es r) = method r.
Proof. unfold withAuth. destruct (String.eqb (username es) ""); reflexivity. Qed.

Lemma url_withAuth es r : url (withAuth es r) = url r.
Proof. unfold withAuth. destruct (String.eqb (username es) ""); reflexivity. Qed.

Lemma body_withAuth es r : body (withAuth es r) = body r.
Proof. unfold withAuth. destruct (String.eqb (username es) ""); reflexivity. Qed.

Lemma ctx_withAuth es r : ctx (withAuth es r) = ctx r.
Proof. unfold withAuth. destruct (String.eqb (username es) ""); reflexivity. Qed.

Lemma Do_log req w w1 r : Do req w = (w1, r) -> log w1 = log w ++ [EvDo req].
Proof.
  unfold Do, logged. cbn [clock store script log].
  destruct (is_done (ctx req) (clock w)); [intros [= <- _]; reflexivity|].
  destruct (script w) as [|[|msg|status content] rest];
    try destruct (serve req (store w)) as [s resp];
    intros [= <- _]; reflexivity.
Qed.

Lemma headRequest_fields es c :
  method (headRequest es c) = MethodHead /\
  url (headRequest es c) = indexURL es /\
  ctx (headRequest es c) = c.
Proof.
  unfold headRequest. rewrite method_withAuth, url_withAuth, ctx_withAuth. auto.
Qed.

Lemma putRequest_fields es c :
  method (putRequest es c) = MethodPut /\
  url (putRequest es c) = indexURL es /\
  body (putRequest es c) = indexMapping /\
  ctx (putRequest es c) = c.
Proof.
  unfold putRequest.
  rewrite method_withAuth, url_withAuth, body_withAuth, ctx_withAuth. auto.
Qed.

(** The existence check on a reliable network. *)
Lemma Do_head es c w :
  is_done c (clock w) = false ->
  script w = [] ->
  Do (headRequest es c) w =
  (mkWorld (clock w) (store w) [] (log w ++ [EvDo (headRequest es c)]),
   inr (mkResponse (match store w !! indexURL es with
                    | Some _ => StatusOK
                    | None => StatusNotFound
                    end) "")).
Proof.
  intros Hlive Hscript. unfold Do, logged. cbn [clock store script log].
  destruct (headRequest_fields es c) as (Hm & Hu & Hc).
  rewrite Hc, Hlive, Hscript. unfold serve. rewrite Hm, Hu.
  destruct (store w !! indexURL es); reflexivity.
Qed.

Lemma Do_put es c w :
  is_done c (clock w) = false ->
  script w = [] ->
  store w !! indexURL es = None ->
  Do (putRequest es c) w =
  (mkWorld (clock w) (<[indexURL es := indexMapping]> (store w)) []
     (log w ++ [EvDo (putRequest es c)]),
   inr (mkResponse StatusOK "")).
Proof.
  intros Hlive Hscript Habsent. unfold Do, logged. cbn [clock store script log].
  destruct (putRequest_fields es c) as (Hm & Hu & Hb & Hc).
  rewrite Hc, Hlive, Hscript. unfold serve. rewrite Hm, Hu, Hb, Habsent.
  reflexivity.
Qed.

Section Provisioning.
Variable parses : string -> bool.
Variable es : Client.
Variable c : Context.
Hypothesis parsed : parses (indexURL es) = true.

Lemma indexExists_Do w :
  indexExists parses es c w =
  match Do (headRequest es c) w with
  | (w1, inl e) => (w1, (false, Some e))
  | (w1, inr resp) =>
      if StatusCode resp =? StatusOK then (w1, (true, None))
      else if StatusCode resp =? StatusNotFound then (w1, (false, None))
      else (w1, (false, Some (StatusError "unexpected status code" (StatusCode resp))))
  end.
Proof using parsed.
  unfold indexExists, NewRequestWithContext. rewrite parsed. reflexivity.
Qed.

(** With the index there, the call is the existence check and nothing
    else. *)
Lemma EnsureIndex_present w m :
  is_done c (clock w) = false ->
  script w = [] ->
  store w !! indexURL es = Some m ->
  EnsureIndex parses es c w =
  (mkWorld (clock w) (store w) [] (log w ++ [EvDo (headRequest es c)]), None).
Proof using parsed.
  intros Hlive Hscript Hm. unfold EnsureIndex.
  rewrite indexExists_Do, Do_head by assumption. rewrite Hm. reflexivity.
Qed.

(** With the index missing, it is created with the fixed settings and
    mappings. *)
Lemma EnsureIndex_absent w :
  is_done c (clock w) = false ->
  script w = [] ->
  store w !! indexURL es = None ->
  EnsureIndex parses es c w =
  (mkWorld (clock w) (<[indexURL es := indexMapping]> (store w)) []
     (log w ++ [EvDo (headRequest es c); EvDo (putRequest es c)]), None).
Proof using parsed.
  intros Hlive Hscript Habsent. unfold EnsureIndex.
  rewrite indexExists_Do, Do_head by assumption. rewrite Habsent.
  change (StatusCode (mkResponse StatusNotFound "") =? StatusOK) with false.
  change (StatusCode (mkResponse StatusNotFound "") =? StatusNotFound) with true.
  cbv iota. unfold NewRequestWithContext. rewrite parsed.
  change (withAuth es (SetContentType "application/json"
                         (mkRequest MethodPut (indexURL es) indexMapping "" None c)))
    with (putRequest es c).
  erewrite doRequestWithRetry_at_once;
    [ | apply Do_put; cbn [clock script store]; first [assumption | reflexivity]
      | reflexivity].
  cbn [StatusCode log]. rewrite <- app_assoc. reflexivity.
Qed.
End Provisioning.

(** C8: index provisioning is idempotent.  On a store that answers,
    two calls of [EnsureIndex] in a row both return without error; after
    the first the index is there, created with the fixed settings and
    mappings if it was missing, and no other index is touched; the second
    finds it, sends the existence check and no creation request, and
    leaves the store as it was.  When the existence check fails to tell
    (a transport error, a status other than 200 and 404), the call returns
    that error and has sent nothing but the check. *)
Theorem ensure_index_idempotent :
  forall (parses : string -> bool) (es : Client) (c : Context) (w : World),
    parses (indexURL es) = true ->
    (is_done c (clock w) = false ->
     script w = [] ->
     exists w1 w2,
       EnsureIndex parses es c w = (w1, None) /\
       EnsureIndex parses es c w1 = (w2, None) /\
       store w1 =
         <[indexURL es := default indexMapping (store w !! indexURL es)]> (store w) /\
       store w2 = store w1 /\
       log w2 = log w1 ++ [EvDo (headRequest es c)]) /\
    (forall w1 e,
        Do (headRequest es c) w = (w1, inl e) ->
        EnsureIndex parses es c w = (w1, Some (Wrapf "failed to check if index exists" e)) /\
        log w1 = log w ++ [EvDo (headRequest es c)]) /\
    (forall w1 resp,
        Do (headRequest es c) w = (w1, inr resp) ->
        StatusCode resp <> StatusOK ->
        StatusCode resp <> StatusNotFound ->
        EnsureIndex parses es c w =
          (w1, Some (Wrapf "failed to check if index exists"
                       (StatusError "unexpected status code" (StatusCode resp)))) /\
        log w1 = log w ++ [EvDo (headRequest es c)]).
Proof.
  intros parses es c w parsed. split; [|split].
  - intros Hlive Hscript.
    destruct (store w !! indexURL es) as [m|] eqn:Hm.
    + rewrite (EnsureIndex_present parses es c parsed w m Hlive Hscript Hm).
      eexists; eexists. split; [reflexivity|].
      rewrite (EnsureIndex_present parses es c parsed _ m);
        [ | exact Hlive | reflexivity | exact Hm].
      cbn [store log clock]. split; [reflexivity|].
      split; [symmetry; apply insert_id; exact Hm|]. split; reflexivity.
    + rewrite (EnsureIndex_absent parses es c parsed w Hlive Hscript Hm).
      eexists; eexists. split; [reflexivity|].
      rewrite (EnsureIndex_present parses es c parsed _ indexMapping);
        [ | exact Hlive | reflexivity | apply lookup_insert_eq].
      cbn [store log clock]. repeat split; reflexivity.
  - intros w1 e HDo. unfold EnsureIndex.
    rewrite (indexExists_Do parses es c parsed), HDo.
    split; [reflexivity | exact (Do_log _ _ _ _ HDo)].
  - intros w1 resp HDo Hok Hnf. unfold EnsureIndex.
    rewrite (indexExists_Do parses es c parsed), HDo.
    apply Z.eqb_neq in Hok, Hnf. rewrite Hok, Hnf.
    split; [reflexivity | exact (Do_log _ _ _ _ HDo)].
Qed.

Lemma ensure_index_idempotent_witness :
  exists w1 w2,
    EnsureIndex anyURL sampleClient Background emptyStore = (w1, None) /\
    EnsureIndex anyURL sampleClient Background w1 = (w2, None) /\
    store w2 = {[ "http://es:9200/code" := indexMapping ]} /\
    requests (log w2) =
      [headRequest sampleClient Background; putRequest sampleClient Background;
       headRequest sampleClient Background].
Proof.
  destruct (proj1 (ensure_index_idempotent anyURL sampleClient Background emptyStore
                     eq_refl) eq_refl eq_refl)
    as (w1 & w2 & H1 & H2 & Hs1 & Hs2 & Hlog).
  exists w1, w2. split; [exact H1|]. split; [exact H2|].
  assert (Hw1 : w1 = mkWorld 0 (<[indexURL sampleClient := indexMapping]> ∅) []
                       [EvDo (headRequest sampleClient Background);
                        EvDo (putRequest sampleClient Background)]).
  { rewrite (EnsureIndex_absent anyURL sampleClient Background eq_refl emptyStore
               eq_refl eq_refl) in H1 by apply lookup_empty.
    injection H1 as <-. reflexivity. }
  split.
  - rewrite Hs2, Hs1. reflexivity.
  - rewrite Hlog, Hw1. reflexivity.
Defined.
End IndexProofs.

(** ** The storage document format *)
Module JsonProofs.
Import Json Elasticsearch JsonSpec.









End JsonProofs.

(** ** CloneRepos *)
Module CloneProofs.
Import GoStrings Indexer CloneSpec.

Lemma synced_app l1 l2 : synced (l1 ++ l2) = synced l1 ++ synced l2.
Proof. apply flat_map_app. Qed.

Lemma failures_app l1 l2 : failures (l1 ++ l2) = failures l1 ++ failures l2.
Proof. apply flat_map_app. Qed.


Section Clone.
Variable env : Git.Env.
Variable config : Config.




Lemma CloneRepos_configured l :
  GitOrg config <> "" ->
  GitRepos config <> [] ->
  CloneRepos env config l =
  let err := mkdirErr l (ReposPath config) in
  let l' := did (MkdirAll (ReposPath config) err) l in
  match err with
  | Some e => (l', Some (Wrapf "failed to create repos directory" (OSError e)))
  | None => (cloneLoop env config (GitRepos config) l', None)
  end.
Proof.
  intros Horg Hrepos. unfold CloneRepos.
  destruct (String.eqb_spec (GitOrg config) "") as [|_]; [contradiction|].
  destruct (GitRepos config) as [|r rest]; [contradiction|]. reflexivity.
Qed.
End Clone.



(** C10: with a configuration and a local root directory that can be
    created, [CloneRepos] returns a nil error whatever the git commands
    do: the failures of single repositories are warned about and not
    returned, so that a run in which every repository failed returns what
    a run in which every repository succeeded returns. *)
Theorem clone_repos_returns_nil :
  forall (env env' : Git.Env) (config : Config) (l l' : Local),
    GitOrg config <> "" ->
    GitRepos config <> [] ->
    mkdirErr l (ReposPath config) = None ->
    mkdirErr l' (ReposPath config) = None ->
    snd (CloneRepos env config l) = None /\
    snd (CloneRepos env config l) = snd (CloneRepos env' config l').
Proof.
  intros env env' config l l' Horg Hrepos Hmk Hmk'.
  rewrite !CloneRepos_configured by assumption. cbv zeta.
  rewrite Hmk, Hmk'. split; reflexivity.
Qed.

Lemma clone_repos_returns_nil_witness :
  snd (CloneRepos allFail sampleConfig sampleLocal) = None /\
  snd (CloneRepos allFail sampleConfig sampleLocal) =
    snd (CloneRepos allSucceed sampleConfig sampleLocal) /\
  failures (actions (fst (CloneRepos allFail sampleConfig sampleLocal))) =
    GitRepos sampleConfig /\
  failures (actions (fst (CloneRepos allSucceed sampleConfig sampleLocal))) = [].
Proof.
  destruct (clone_repos_returns_nil allFail allSucceed sampleConfig sampleLocal
              sampleLocal) as [Hnil Hsame]; try discriminate; try reflexivity.
  split; [exact Hnil|]. split; [exact Hsame|]. split; vm_compute; reflexivity.
Defined.
End CloneProofs.

(** ** Overlapping invocations of IndexAllRepos *)
Module RunProofs.
Import GoStrings Walker Indexer RunSpec.

Lemma sumOf_insert f l : forall i p p',
  l !! i = Some p ->
  (sumOf f (<[i := p']> l) + f p = sumOf f l + f p')%nat.
Proof.
  induction l as [|a l IH]; intros [|i] p p' Hi; try discriminate Hi.
  - injection Hi as ->. simpl. lia.
  - simpl in Hi. simpl. specialize (IH i p p' Hi). lia.
Qed.

Lemma sumOf_lookup f l i p : l !! i = Some p -> (f p <= sumOf f l)%nat.
Proof.
  revert i. induction l as [|a l IH]; intros [|i] Hi; try discriminate Hi.
  - injection Hi as ->. simpl. lia.
  - simpl in Hi. simpl. specialize (IH i Hi). lia.
Qed.

Lemma sumOf_zero f l : sumOf f l = 0%nat -> Forall (fun p => f p = 0%nat) l.
Proof.
  induction l as [|a l IH]; intros H; constructor; simpl in H; [lia | apply IH; lia].
Qed.

Lemma sumOf_replicate f n p : sumOf f (replicate n p) = (n * f p)%nat.
Proof. induction n as [|n IH]; simpl; [reflexivity | rewrite IH; lia]. Qed.

Section Run.
Variable indexFile : string -> string -> Z * option error.
Variable config : Config.
Variable root : string + list Node.

Abbreviation advance := (advance indexFile config root).
Abbreviation stepCall := (stepCall indexFile config root).
Abbreviation run := (run indexFile config root).
Abbreviation consistent := (consistent indexFile config root).
Abbreviation invariant := (invariant indexFile config root).
Abbreviation expected := (expected indexFile config root).

(** One iteration adds the count of its entry, whatever the metrics. *)
Lemma indexEntry_count entry totalCount m :
  snd (indexEntry indexFile config entry totalCount m) =
  totalCount + entryCount indexFile config entry.
Proof.
  unfold indexEntry, entryCount. destruct (negb (nodeIsDir entry)); [simpl; lia|].
  unfold indexRepoIfValid. destruct (gitMissing entry); [reflexivity|].
  unfold IndexRepository.
  destruct (walkAndIndexRepo indexFile _ _ entry) as [count [e|]]; simpl; lia.
Qed.

Lemma countEntries_app l1 l2 :
  countEntries indexFile config (l1 ++ l2) =
  countEntries indexFile config l1 + countEntries indexFile config l2.
Proof. induction l1 as [|a l1 IH]; simpl; [reflexivity | rewrite IH; lia]. Qed.

Lemma indexEntries_count entries : forall totalCount m,
  snd (indexEntries indexFile config entries totalCount m) =
  totalCount + countEntries indexFile config entries.
Proof.
  induction entries as [|entry rest IH]; intros totalCount m; [simpl; lia|].
  cbn [indexEntries]. pose proof (indexEntry_count entry totalCount m) as Hc.
  destruct (indexEntry indexFile config entry totalCount m) as [m1 total1].
  cbn [snd] in Hc. rewrite IH, Hc. simpl. lia.
Qed.

(** A run of [IndexAllRepos] on its own returns the expected result. *)
Lemma indexAll_expected m :
  snd (indexAll indexFile config root m) = expected.
Proof.
  unfold indexAll, RunSpec.expected. destruct root as [e|entries]; [reflexivity|].
  pose proof (indexEntries_count entries 0 m) as Hc.
  destruct (indexEntries indexFile config entries 0 m) as [m1 total1].
  cbn [snd] in *. rewrite Hc. reflexivity.
Qed.

(** A step of an invocation: it keeps or takes the mutex as its phases
    say, stays consistent, and has one step less to go. *)
Lemma advance_step p locked m p' locked' m' :
  advance p locked m = Some (p', locked', m') ->
  (holds p = true -> locked = true) ->
  consistent p ->
  consistent p' /\
  locked' = holds p' /\
  (holds p = false -> locked = false) /\
  stepsLeft root p = S (stepsLeft root p').
Proof.
  intros Hadv Hheld Hcons.
  destruct p as [| |[|entry rest] totalCount|totalCount err|totalCount err];
    cbn [advance Indexer.advance] in Hadv.
  - destruct locked; [discriminate Hadv|]. injection Hadv as <- <- <-.
    cbn. destruct root; auto.
  - destruct root as [e|entries] eqn:Hroot; injection Hadv as <- <- <-; cbn.
    + rewrite Hheld by reflexivity. split; [reflexivity|]. auto with lia.
    + rewrite Hheld by reflexivity. split; [exists []; auto|]. auto with lia.
  - injection Hadv as <- <- <-. cbn. rewrite Hheld by reflexivity.
    destruct Hcons as (done_ & Hroot & Htotal). rewrite app_nil_r in Hroot.
    unfold RunSpec.expected. rewrite Hroot, Htotal. auto with lia.
  - destruct (indexEntry indexFile config entry totalCount m) as [m1 total1] eqn:Hentry.
    injection Hadv as <- <- <-. cbn. rewrite Hheld by reflexivity.
    destruct Hcons as (done_ & Hroot & Htotal).
    split; [|auto with lia]. exists (done_ ++ [entry]).
    rewrite <- app_assoc. split; [exact Hroot|].
    pose proof (indexEntry_count entry totalCount m) as Hc. rewrite Hentry in Hc.
    cbn [snd] in Hc. rewrite Hc, countEntries_app, Htotal. simpl. lia.
  - injection Hadv as <- <- <-. cbn. auto with lia.
  - discriminate Hadv.
Qed.
Lemma invariant_initial n m : invariant (initial n m).
Proof.
  split.
  - unfold holders, initial. cbn [calls mu]. rewrite sumOf_replicate. cbn. lia.
  - cbn [calls initial]. apply Forall_replicate. exact I.
Qed.

Lemma held_locked s i p :
  invariant s -> calls s !! i = Some p -> holds p = true -> mu s = true.
Proof.
  intros [Hmu _] Hi Hp.
  pose proof (sumOf_lookup (fun p => if holds p then 1%nat else 0%nat) _ _ _ Hi) as Hle.
  cbn beta in Hle. rewrite Hp in Hle. unfold holders in Hmu.
  destruct (mu s); [reflexivity | lia].
Qed.

Lemma stepCall_inv i s s' :
  stepCall i s = Some s' ->
  invariant s ->
  invariant s' /\ stepsToGo root s = S (stepsToGo root s').
Proof.
  unfold stepCall, Indexer.stepCall. intros Hstep Hinv.
  destruct (calls s !! i) as [p|] eqn:Hi; [|discriminate Hstep].
  destruct (advance p (mu s) (metrics s)) as [[[p' locked'] m']|] eqn:Hadv;
    [|discriminate Hstep].
  injection Hstep as <-.
  pose proof Hinv as [Hmu Hall].
  destruct (advance_step p (mu s) (metrics s) p' locked' m' Hadv
              (held_locked s i p Hinv Hi)
              (proj1 (Forall_lookup _ _) Hall i p Hi))
    as (Hcons & Hlocked & Hfree & Hsteps).
  pose proof (sumOf_insert (fun p => if holds p then 1%nat else 0%nat)
                (calls s) i p p' Hi) as Hsum.
  pose proof (sumOf_insert (stepsLeft root) (calls s) i p p' Hi) as Hgo.
  split; [split|].
  - unfold holders in *. cbn [calls mu]. cbn beta in Hsum.
    destruct (holds p) eqn:Hp.
    + rewrite (held_locked s i p Hinv Hi Hp) in Hmu.
      rewrite Hlocked. destruct (holds p'); lia.
    + rewrite (Hfree eq_refl) in Hmu. rewrite Hlocked. destruct (holds p'); lia.
  - cbn [calls]. apply Forall_insert; assumption.
  - unfold stepsToGo. cbn [calls]. lia.
Qed.

Lemma invariant_run schedule : forall s,
  invariant s -> invariant (run schedule s).
Proof.
  induction schedule as [|i rest IH]; intros s Hinv; [exact Hinv|].
  cbn [run Indexer.run]. destruct (stepCall i s) as [s'|] eqn:Hstep.
  - apply IH. exact (proj1 (stepCall_inv i s s' Hstep Hinv)).
  - apply IH. exact Hinv.
Qed.

Lemma length_run schedule : forall s,
  length (calls (run schedule s)) = length (calls s).
Proof.
  induction schedule as [|i rest IH]; intros s; [reflexivity|].
  cbn [run Indexer.run]. destruct (stepCall i s) as [s'|] eqn:Hstep; [|apply IH].
  rewrite IH. unfold stepCall, Indexer.stepCall in Hstep.
  destruct (calls s !! i) as [p|]; [|discriminate Hstep].
  destruct (advance p (mu s) (metrics s)) as [[[p' locked'] m']|];
    [|discriminate Hstep].
  injection Hstep as <-. cbn [calls]. apply length_insert.
Qed.

(** An invocation that holds the mutex can always go on; one that waits
    for it can go on once the mutex is free. *)
Lemma advance_enabled p locked m :
  finished p = false ->
  (holds p = false -> locked = false) ->
  is_Some (advance p locked m).
Proof.
  intros Hfin Hfree.
  destruct p as [| |[|entry rest] totalCount|totalCount err|totalCount err];
    cbn [advance Indexer.advance]; try (eexists; reflexivity).
  - rewrite Hfree by reflexivity. eexists; reflexivity.
  - destruct root; eexists; reflexivity.
  - destruct (indexEntry indexFile config entry totalCount m). eexists; reflexivity.
  - discriminate Hfin.
Qed.

Lemma progress s :
  invariant s ->
  (exists i p, calls s !! i = Some p /\ finished p = false) ->
  exists i s', stepCall i s = Some s'.
Proof.
  intros Hinv (i & p & Hi & Hfin).
  destruct (mu s) eqn:Hmu.
  - (* someone holds the mutex: that invocation steps *)
    destruct Hinv as [Hh _]. rewrite Hmu in Hh. unfold holders in Hh.
    assert (Hex : exists j q, calls s !! j = Some q /\ holds q = true).
    { clear -Hh. induction (calls s) as [|a l IH]; [discriminate Hh|].
      destruct (holds a) eqn:Ha.
      - exists 0%nat, a. auto.
      - cbn [sumOf] in Hh. rewrite Ha in Hh.
        destruct (IH Hh) as (j & q & Hj & Hq). exists (S j), q. auto. }
    destruct Hex as (j & q & Hj & Hq).
    destruct (advance_enabled q true (metrics s)) as [[[q' l'] m'] Hadv].
    + destruct q; first [discriminate Hq | reflexivity].
    + intros Hn. congruence.
    + exists j. unfold stepCall, Indexer.stepCall. rewrite Hj, Hmu, Hadv.
      eexists; reflexivity.
  - destruct (advance_enabled p false (metrics s) Hfin) as [[[p' l'] m'] Hadv];
      [reflexivity|].
    exists i. unfold stepCall, Indexer.stepCall. rewrite Hi, Hmu, Hadv.
    eexists; reflexivity.
Qed.

Lemma all_finished_dec (l : list Phase) :
  Forall (fun p => finished p = true) l \/
  exists i p, l !! i = Some p /\ finished p = false.
Proof.
  induction l as [|a l [IH|(i & p & Hi & Hp)]].
  - left. constructor.
  - destruct (finished a) eqn:Ha.
    + left. constructor; assumption.
    + right. exists 0%nat, a. auto.
  - right. exists (S i), p. auto.
Qed.

(** From every state the invocations can reach, some schedule lets all
    of them return. *)
Lemma completion : forall k s,
  stepsToGo root s = k ->
  invariant s ->
  exists schedule, Forall (fun p => finished p = true) (calls (run schedule s)).
Proof.
  induction k as [|k IH]; intros s Hk Hinv.
  - exists []. cbn [run Indexer.run].
    destruct (all_finished_dec (calls s)) as [Hall|Hsome]; [exact Hall|].
    destruct (progress s Hinv Hsome) as (i & s' & Hstep).
    pose proof (proj2 (stepCall_inv i s s' Hstep Hinv)). lia.
  - destruct (all_finished_dec (calls s)) as [Hall|Hsome]; [exists []; exact Hall|].
    destruct (progress s Hinv Hsome) as (i & s' & Hstep).
    destruct (stepCall_inv i s s' Hstep Hinv) as [Hinv' Hgo].
    destruct (IH s' ltac:(lia) Hinv') as [schedule Hdone].
    exists (i :: schedule). cbn [run Indexer.run]. rewrite Hstep. exact Hdone.
Qed.
End Run.

(** C1: invocations of [IndexAllRepos] that overlap on one indexer run
    one at a time.  In every state that [n] invocations reach, under any
    schedule: at most one of them is between [Lock] and the deferred
    [Unlock], and the mutex is locked exactly then; an invocation that
    calls [Lock] while another holds the mutex cannot step and stays
    where it is, neither dropped nor failed, and steps once the mutex is
    free; the mutex is free when no invocation is inside, whether the
    last one returned a total or the error of reading the directory;
    every invocation that has returned reports the result of a run of its
    own, each entry of the repos directory counted once; every step brings
    the end nearer, and the invocations can always go on until all of them
    have returned. *)
Theorem index_all_repos_exclusive :
  forall (indexFile : string -> string -> Z * option error) (config : Config)
         (root : string + list Node) (n : nat) (m : Metrics) (schedule : list nat),
    let s := run indexFile config root schedule (initial n m) in
    length (calls s) = n /\
    (holders s <= 1)%nat /\
    (mu s = true <-> exists i p, calls s !! i = Some p /\ holds p = true) /\
    (forall i j p,
        calls s !! j = Some p -> holds p = true ->
        calls s !! i = Some AtLock ->
        stepCall indexFile config root i s = None /\
        calls (run indexFile config root [i] s) !! i = Some AtLock) /\
    (forall i,
        calls s !! i = Some AtLock -> mu s = false ->
        exists s', stepCall indexFile config root i s = Some s' /\
                   calls s' !! i = Some AtReadDir /\ mu s' = true) /\
    (forall i totalCount err,
        calls s !! i = Some (Returned totalCount err) ->
        (totalCount, err) = expected indexFile config root /\
        forall m', (totalCount, err) = snd (indexAll indexFile config root m')) /\
    (forall i s',
        stepCall indexFile config root i s = Some s' ->
        stepsToGo root s = S (stepsToGo root s')) /\
    (exists rest,
        Forall (fun p => finished p = true)
          (calls (run indexFile config root rest s))).
Proof.
  intros indexFile config root n m schedule s.
  assert (Hinv : invariant indexFile config root s)
    by (apply invariant_run, invariant_initial).
  assert (Hlen : length (calls s) = n).
  { subst s. rewrite length_run. cbn [calls initial]. apply length_replicate. }
  pose proof Hinv as [Hh Hall].
  split; [exact Hlen|]. split; [destruct (mu s); lia|].
  split; [|split; [|split; [|split; [|split]]]].
  - split.
    + intros Hmu. rewrite Hmu in Hh. unfold holders in Hh. clear -Hh.
      induction (calls s) as [|a l IH]; [discriminate Hh|].
      destruct (holds a) eqn:Ha.
      * exists 0%nat, a. auto.
      * cbn [sumOf] in Hh. rewrite Ha in Hh.
        destruct (IH Hh) as (j & q & Hj & Hq). exists (S j), q. auto.
    + intros (i & p & Hi & Hp). exact (held_locked _ _ _ s i p Hinv Hi Hp).
  - intros i j p Hj Hp Hi.
    assert (Hblocked : stepCall indexFile config root i s = None).
    { unfold stepCall. rewrite Hi. cbn [advance].
      rewrite (held_locked _ _ _ s j p Hinv Hj Hp). reflexivity. }
    split; [exact Hblocked|]. cbn [run]. rewrite Hblocked. exact Hi.
  - intros i Hi Hmu. unfold stepCall. rewrite Hi, Hmu. cbn [advance].
    eexists. split; [reflexivity|]. cbn [calls mu]. split; [|reflexivity].
    apply list_lookup_insert_eq. apply lookup_lt_Some in Hi. exact Hi.
  - intros i totalCount err Hi.
    pose proof (proj1 (Forall_lookup _ _) Hall i _ Hi) as Hc. cbn in Hc.
    split; [exact Hc|]. intros m'. rewrite indexAll_expected. exact Hc.
  - intros i s' Hstep. exact (proj2 (stepCall_inv _ _ _ i s s' Hstep Hinv)).
  - exact (completion indexFile config root _ s eq_refl Hinv).
Qed.

Lemma index_all_repos_exclusive_witness :
  let s := run threeFunctions reposConfig sampleRoot [0; 0; 1; 0]%nat
             (initial 2 noMetrics) in
  let s' := run threeFunctions reposConfig sampleRoot overlapping
              (initial 2 noMetrics) in
  (stepCall threeFunctions reposConfig sampleRoot 1 s = None /\
   calls (run threeFunctions reposConfig sampleRoot [1%nat] s) !! 1%nat
     = Some AtLock) /\
  (3, None) = expected threeFunctions reposConfig sampleRoot /\
  calls s' = [Returned 3 None; Returned 3 None] /\
  mu s' = false.
Proof.
  intros s s'.
  pose proof (index_all_repos_exclusive threeFunctions reposConfig sampleRoot
                2 noMetrics [0; 0; 1; 0]%nat) as H.
  pose proof (index_all_repos_exclusive threeFunctions reposConfig sampleRoot
                2 noMetrics overlapping) as H'.
  cbv zeta in H, H'.
  destruct H as (_ & _ & _ & Hblock & _).
  destruct H' as (_ & _ & _ & _ & _ & Hresult & _).
  split; [|split; [|split]].
  - apply (Hblock 1%nat 0%nat (InLoop [File "README.md"] 3)); reflexivity.
  - apply (Hresult 1%nat 3 None). reflexivity.
  - reflexivity.
  - reflexivity.
Defined.
End RunProofs.

(** ** The retry loop under any context and any network *)
Module RetryProofs.
Import Elasticsearch ClientSpec IndexSpec NetworkSpec ClientProofs IndexProofs.

Lemma wait_log c backoff w w' cancelled :
  wait c backoff w = (w', cancelled) ->
  store w' = store w /\ script w' = script w /\
  log w' = log w ++ (if cancelled then [] else [EvSleep backoff]).
Proof.
  unfold wait, logged. destruct (doneAt c) as [t|].
  - destruct (t <=? clock w + backoff); intros [= <- <-]; cbn;
      rewrite ?app_nil_r; auto.
  - intros [= <- <-]. cbn. auto.
Qed.

(** Whatever the context and the network do, the log of the loop is the
    log of some number of attempts, at most as many as it had left. *)
Lemma retryLoop_log req : forall left attempt backoff resp err w,
  exists k,
    (k <= left)%nat /\
    ((0 <? attempt) = false -> (0 < left)%nat -> (1 <= k)%nat) /\
    log (fst (retryLoop left attempt backoff req resp err w)) =
    log w ++ attemptsTrace req attempt backoff k.
Proof.
  induction left as [|n IH]; intros attempt backoff resp err w.
  - exists 0%nat. cbn [retryLoop attemptsTrace]. rewrite app_nil_r.
    destruct err as [e|], resp as [r|]; repeat split; auto; lia.
  - cbn [retryLoop]. destruct (0 <? attempt) eqn:Hretry.
    + destruct (wait (ctx req) backoff w) as [w1 cancelled] eqn:Hwait.
      destruct (wait_log _ _ _ _ _ Hwait) as (_ & _ & Hlog1).
      destruct cancelled.
      * exists 0%nat. cbn [fst attemptsTrace]. rewrite Hlog1.
        repeat split; [lia | discriminate].
      * destruct (Do req w1) as [w2 [e|r]] eqn:HDo;
          pose proof (Do_log _ _ _ _ HDo) as Hlog2.
        -- destruct (IH (attempt + 1) (backoff * retryMultiplier) None (Some e) w2)
             as (k & Hk & _ & Hlog).
           exists (S k). split; [lia|]. split; [lia|]. rewrite Hlog, Hlog2, Hlog1.
           cbn [attemptsTrace]. rewrite Hretry, <- !app_assoc. reflexivity.
        -- destruct (StatusCode r <? StatusInternalServerError).
           ++ exists 1%nat. split; [lia|]. split; [lia|]. cbn [fst attemptsTrace].
              rewrite Hlog2, Hlog1, Hretry, <- !app_assoc. reflexivity.
           ++ destruct (IH (attempt + 1) (backoff * retryMultiplier) (Some r) None w2)
                as (k & Hk & _ & Hlog).
              exists (S k). split; [lia|]. split; [lia|]. rewrite Hlog, Hlog2, Hlog1.
              cbn [attemptsTrace]. rewrite Hretry, <- !app_assoc. reflexivity.
    + destruct (Do req w) as [w2 [e|r]] eqn:HDo;
        pose proof (Do_log _ _ _ _ HDo) as Hlog2.
      * destruct (IH (attempt + 1) backoff None (Some e) w2) as (k & Hk & _ & Hlog).
        exists (S k). split; [lia|]. split; [lia|]. rewrite Hlog, Hlog2.
        cbn [attemptsTrace]. rewrite Hretry, <- !app_assoc. reflexivity.
      * destruct (StatusCode r <? StatusInternalServerError).
        -- exists 1%nat. split; [lia|]. split; [lia|]. cbn [fst attemptsTrace].
           rewrite Hlog2, Hretry. reflexivity.
        -- destruct (IH (attempt + 1) backoff (Some r) None w2) as (k & Hk & _ & Hlog).
           exists (S k). split; [lia|]. split; [lia|]. rewrite Hlog, Hlog2.
           cbn [attemptsTrace]. rewrite Hretry, <- !app_assoc. reflexivity.
Qed.

Lemma requests_trace req : forall n attempt backoff,
  requests (attemptsTrace req attempt backoff n) = replicate n req.
Proof.
  induction n as [|k IH]; intros attempt backoff; [reflexivity|].
  cbn [attemptsTrace]. unfold requests in *. rewrite flat_map_app.
  cbn [flat_map replicate]. rewrite IH. destruct (0 <? attempt); reflexivity.
Qed.

Lemma doRequestWithRetry_trace req w :
  exists k,
    (1 <= k <= Z.to_nat (maxRetries + 1))%nat /\
    log (fst (doRequestWithRetry req w)) =
    log w ++ attemptsTrace req 0 retryBackoff k.
Proof.
  unfold doRequestWithRetry.
  destruct (retryLoop_log req (Z.to_nat (maxRetries + 1)) 0 retryBackoff None None w)
    as (k & Hk & Hone & Hlog).
  exists k. split; [|exact Hlog]. split; [|exact Hk].
  apply Hone; [reflexivity|]. change (Z.to_nat (maxRetries + 1)) with 4%nat. lia.
Qed.


(** A nil error of the loop comes with a response, and with one below
    500. *)
Lemma retryLoop_nil_error req : forall left attempt backoff resp err w r,
  (resp, err) <> (None, None) ->
  snd (retryLoop left attempt backoff req resp err w) = (r, None) ->
  exists resp', r = Some resp' /\ StatusCode resp' < StatusInternalServerError.
Proof.
  induction left as [|n IH]; intros attempt backoff resp err w r Hst.
  - cbn [retryLoop]. destruct err as [e|], resp as [r0|]; cbn; congruence.
  - cbn [retryLoop]. destruct (0 <? attempt).
    + destruct (wait (ctx req) backoff w) as [w1 [|]]; [cbn; congruence|].
      destruct (Do req w1) as [w2 [e|r0]]; [apply IH; congruence|].
      destruct (Z.ltb_spec (StatusCode r0) StatusInternalServerError);
        [|apply IH; congruence].
      cbn. intros [= <-]. eauto.
    + destruct (Do req w) as [w2 [e|r0]]; [apply IH; congruence|].
      destruct (Z.ltb_spec (StatusCode r0) StatusInternalServerError);
        [|apply IH; congruence].
      cbn. intros [= <-]. eauto.
Qed.

(** X2: [doRequestWithRetry] returns a nil error only together with a
    response, and only with one whose status is below 500; a response of
    500 or more never comes back as a success, and a nil response never
    comes with a nil error. *)
Theorem retry_success_is_below_500 :
  forall (req : Request) (w : World),
    match snd (doRequestWithRetry req w) with
    | (Some resp, None) => StatusCode resp < StatusInternalServerError
    | (None, None) => False
    | (_, Some _) => True
    end.
Proof.
  intros req w. unfold doRequestWithRetry.
  change (Z.to_nat (maxRetries + 1)) with (S 3). generalize 3%nat. intros n.
  destruct (snd (retryLoop (S n) 0 retryBackoff req None None w)) as [r [e|]] eqn:Hrun;
    [destruct r; exact I|].
  cbn [retryLoop] in Hrun. change (0 <? 0) with false in Hrun. cbv iota in Hrun.
  destruct (Do req w) as [w2 [e|r0]].
  - destruct (retryLoop_nil_error req n _ _ None (Some e) w2 r ltac:(congruence) Hrun)
      as (resp' & -> & Hlt). exact Hlt.
  - destruct (Z.ltb_spec (StatusCode r0) StatusInternalServerError) as [Hlt|Hge].
    + cbn in Hrun. injection Hrun as <-. exact Hlt.
    + destruct (retryLoop_nil_error req n _ _ (Some r0) None w2 r ltac:(congruence) Hrun)
        as (resp' & -> & Hlt). exact Hlt.
Qed.

(** X3: cancellation.  With a context that is done already, the call
    makes its one attempt, which fails at once, and returns the context's
    error without waiting or touching the network.  With a context that is
    done during the first backoff, after a first attempt that failed, the
    call returns the context's error at the instant the context is done,
    with no second attempt. *)
Theorem retry_stops_when_cancelled :
  forall (req : Request) (w : World) (t : Z),
    doneAt (ctx req) = Some t ->
    (t <= clock w ->
     doRequestWithRetry req w =
       (mkWorld (clock w) (store w) (script w) (log w ++ [EvDo req]),
        (None, Some ContextErr))) /\
    (clock w < t < clock w + retryBackoff ->
     forall o rest,
       script w = o :: rest ->
       retryable o = true ->
       doRequestWithRetry req w =
         (mkWorld t (store w) rest (log w ++ [EvDo req]),
          (fst (held o), Some ContextErr))).
Proof.
  intros req [clk st sc lg] t Hdone. cbn [clock store script log].
  unfold doRequestWithRetry. change (Z.to_nat (maxRetries + 1)) with (S 3).
  cbn [retryLoop]. change (0 <? 0) with false. cbv iota.
  unfold Do, logged, is_done. cbn [ctx clock store script log]. rewrite Hdone.
  split.
  - intros Hle. apply Z.leb_le in Hle as Hb. rewrite Hb.
    change (0 <? 0 + 1) with true. cbv iota.
    unfold wait. rewrite Hdone. cbn [clock store script log].
    assert (Hw : (t <=? clk + retryBackoff) = true)
      by (apply Z.leb_le; unfold retryBackoff, Millisecond; lia).
    rewrite Hw. replace (Z.max clk t) with clk by lia. reflexivity.
  - intros [Hlt Hle] o rest -> Ho.
    assert (Hb : (t <=? clk) = false) by (apply Z.leb_gt; exact Hlt). rewrite Hb.
    assert (Hw : (t <=? clk + retryBackoff) = true) by (apply Z.leb_le; lia).
    destruct o as [|msg|s c]; [discriminate Ho| |].
    + change (0 <? 0 + 1) with true. cbv iota.
      unfold wait. rewrite Hdone. cbn [clock store script log]. rewrite Hw.
      replace (Z.max clk t) with t by lia. reflexivity.
    + cbn [StatusCode]. cbn [retryable] in Ho. apply Z.leb_le in Ho.
      destruct (Z.ltb_spec s StatusInternalServerError) as [Hs|_]; [lia|].
      change (0 <? 0 + 1) with true. cbv iota.
      unfold wait. rewrite Hdone. cbn [clock store script log]. rewrite Hw.
      replace (Z.max clk t) with t by lia. reflexivity.
Qed.

Lemma retry_stops_when_cancelled_witness :
  doRequestWithRetry hurried unavailable =
    (mkWorld (200 * Millisecond) (store unavailable) [Reply 200 "ok"]
       (log unavailable ++ [EvDo hurried]),
     (fst (held (Reply 503 "unavailable")), Some ContextErr)).
Proof.
  apply (proj2 (retry_stops_when_cancelled hurried unavailable (200 * Millisecond)
                  eq_refl)).
  - vm_compute. split; reflexivity.
  - reflexivity.
  - reflexivity.
Defined.

(** *** Index provisioning over a network that fails *)

Lemma honest_tail o rest :
  forallb honest (o :: rest) = true -> forallb honest rest = true.
Proof. cbn [forallb]. intros H. apply andb_true_iff in H. tauto. Qed.

(** One [Do] either leaves the store alone or is answered by the store;
    over an honest network every answer below 500 is the store's. *)
Lemma Do_store req w w1 r :
  Do req w = (w1, r) ->
  (forallb honest (script w) = true -> forallb honest (script w1) = true) /\
  ((store w1 = store w /\
    (forallb honest (script w) = true ->
     match r with
     | inl _ => True
     | inr resp => StatusInternalServerError <= StatusCode resp
     end)) \/
   (store w1, r) = (fst (serve req (store w)), inr (snd (serve req (store w))))).
Proof.
  unfold Do, logged. cbn [clock store script log].
  destruct (is_done (ctx req) (clock w)).
  { intros [= <- <-]. cbn. auto. }
  destruct (script w) as [|[|msg|status content] rest].
  - destruct (serve req (store w)) as [s resp]. intros [= <- <-]. cbn. auto.
  - destruct (serve req (store w)) as [s resp]. intros [= <- <-]. cbn [script store].
    split; [apply honest_tail | auto].
  - intros [= <- <-]. cbn [script store]. split; [apply honest_tail | auto].
  - intros [= <- <-]. cbn [script store]. split; [apply honest_tail|].
    left. split; [reflexivity|]. cbn [forallb honest StatusCode].
    intros H. apply andb_true_iff in H as [H _]. apply Z.leb_le in H. exact H.
Qed.

Section Lossy.
Variable es : Client.
Variable c : Context.

Abbreviation u := (indexURL es).
Abbreviation created := (NetworkSpec.created es).

Lemma serve_put (s : gmap string string) :
  created s (fst (serve (putRequest es c) s)) /\
  (StatusCode (snd (serve (putRequest es c) s)) < StatusMultipleChoices ->
   fst (serve (putRequest es c) s) !! u = Some indexMapping).
Proof.
  destruct (putRequest_fields es c) as (Hm & Hu & Hb & _).
  unfold serve, created, NetworkSpec.created. rewrite Hm, Hu, Hb. fold u.
  destruct (s !! u) as [m|] eqn:Hs; cbn [fst snd StatusCode].
  - split; [auto|]. unfold StatusBadRequest, StatusMultipleChoices. lia.
  - split; [auto|]. intros _. apply lookup_insert_eq.
Qed.

Lemma retryLoop_put : forall left attempt backoff resp err w,
  created (store w)
    (store (fst (retryLoop left attempt backoff (putRequest es c) resp err w))) /\
  (forallb honest (script w) = true ->
   forall r,
     snd (retryLoop left attempt backoff (putRequest es c) resp err w) = (Some r, None) ->
     StatusCode r < StatusMultipleChoices ->
     store (fst (retryLoop left attempt backoff (putRequest es c) resp err w)) !! u
       = Some indexMapping).
Proof.
  assert (Hstep : forall n attempt backoff w,
    (forall attempt backoff resp err w,
       created (store w)
         (store (fst (retryLoop n attempt backoff (putRequest es c) resp err w))) /\
       (forallb honest (script w) = true ->
        forall r,
          snd (retryLoop n attempt backoff (putRequest es c) resp err w) = (Some r, None) ->
          StatusCode r < StatusMultipleChoices ->
          store (fst (retryLoop n attempt backoff (putRequest es c) resp err w)) !! u
            = Some indexMapping)) ->
    let run :=
      match Do (putRequest es c) w with
      | (w2, inl e) =>
          retryLoop n (attempt + 1) backoff (putRequest es c) None (Some e) w2
      | (w2, inr r) =>
          if StatusCode r <? StatusInternalServerError
          then (w2, (Some r, None))
          else retryLoop n (attempt + 1) backoff (putRequest es c) (Some r) None w2
      end in
    created (store w) (store (fst run)) /\
    (forallb honest (script w) = true ->
     forall r, snd run = (Some r, None) ->
     StatusCode r < StatusMultipleChoices ->
     store (fst run) !! u = Some indexMapping)).
  { intros n attempt backoff w IH run. subst run.
    destruct (Do (putRequest es c) w) as [w2 [e|r0]] eqn:HDo;
      destruct (Do_store _ _ _ _ HDo) as (Hhon & [[Hst Hans]|Hserved]).
    - destruct (IH (attempt + 1) backoff None (Some e) w2) as [Hc Hs].
      rewrite Hst in Hc. split; [exact Hc|]. intros Hh. apply Hs, Hhon, Hh.
    - discriminate Hserved.
    - destruct (Z.ltb_spec (StatusCode r0) StatusInternalServerError) as [Hlt|Hge].
      + cbn [fst snd]. split; [left; exact Hst|].
        intros Hh. specialize (Hans Hh). cbv beta iota in Hans. lia.
      + destruct (IH (attempt + 1) backoff (Some r0) None w2) as [Hc Hs].
        rewrite Hst in Hc. split; [exact Hc|]. intros Hh. apply Hs, Hhon, Hh.
    - injection Hserved as Hst Hr0.
      destruct (serve_put (store w)) as [Hc Hs]. rewrite <- Hst, <- Hr0 in *.
      destruct (Z.ltb_spec (StatusCode r0) StatusInternalServerError) as [Hlt|Hge].
      + cbn [fst snd]. split; [exact Hc|]. intros _ r [= <-]. exact Hs.
      + exfalso. revert Hge. rewrite Hr0. unfold serve.
        destruct (method (putRequest es c)); repeat case_match; cbn;
          unfold StatusInternalServerError, StatusOK, StatusNotFound, StatusBadRequest;
          lia. }
  induction left as [|n IH]; intros attempt backoff resp err w.
  - cbn [retryLoop]. destruct err as [e|], resp as [r0|]; cbn [fst snd];
      (split; [left; reflexivity | intros _ r; congruence]).
  - cbn [retryLoop]. destruct (0 <? attempt).
    + destruct (wait (ctx (putRequest es c)) backoff w) as [w1 cancelled] eqn:Hwait.
      destruct (wait_log _ _ _ _ _ Hwait) as (Hst & Hsc & _).
      destruct cancelled.
      * cbn [fst snd]. split; [left; exact Hst | intros _ r; congruence].
      * rewrite <- Hst, <- Hsc. apply (Hstep n attempt _ w1 IH).
    + apply (Hstep n attempt _ w IH).
Qed.

(** X4: [EnsureIndex] over a network that loses requests and answers with
    5xx errors of its own.  Whatever happens, the only change it makes to
    the store is to create the index, with [indexMapping], where there was
    none; and when the network makes up no answer below 500, a nil error
    means that the index exists when the call returns. *)
Theorem ensure_index_success_means_index :
  forall (parses : string -> bool) (w : World),
    NetworkSpec.created es (store w) (store (fst (EnsureIndex parses es c w))) /\
    (forallb honest (script w) = true ->
     snd (EnsureIndex parses es c w) = None ->
     exists mapping,
       store (fst (EnsureIndex parses es c w)) !! indexURL es = Some mapping).
Proof.
  intros parses w. fold created. unfold EnsureIndex, indexExists, NewRequestWithContext.
  destruct (parses (indexURL es)) eqn:Hparses.
  2: { cbn. split; [left; reflexivity | discriminate]. }
  fold (headRequest es c).
  destruct (Do (headRequest es c) w) as [w1 [e|resp]] eqn:HDo.
  { cbn [fst snd]. destruct (Do_store _ _ _ _ HDo) as (_ & [[Hst _]|Hserved]);
      [|discriminate Hserved].
    split; [left; exact Hst | discriminate]. }
  assert (Hhead : store w1 = store w /\
            (forallb honest (script w) = true ->
             forallb honest (script w1) = true /\
             (StatusCode resp = StatusOK -> exists m, store w !! u = Some m) /\
             (StatusInternalServerError <= StatusCode resp \/
              StatusCode resp = StatusOK \/ StatusCode resp = StatusNotFound))).
  { destruct (headRequest_fields es c) as (Hm & Hu & _).
    destruct (Do_store _ _ _ _ HDo) as (Hhon & [[Hst Hans]|Hserved]).
    - split; [exact Hst|]. intros Hh. specialize (Hans Hh). cbv beta iota in Hans.
      split; [auto|]. split; [|auto].
      unfold StatusOK, StatusInternalServerError in *. lia.
    - unfold serve in Hserved. rewrite Hm, Hu in Hserved. fold u in Hserved.
      destruct (store w !! u) as [m|] eqn:Hlook; cbn [fst snd] in Hserved;
        injection Hserved as Hst ->; cbn [StatusCode].
      + split; [exact Hst|]. intros Hh. split; [auto|]. split; [eauto | auto].
      + split; [exact Hst|]. intros Hh. split; [auto|]. split; [|auto].
        unfold StatusOK, StatusNotFound. lia. }
  destruct Hhead as [Hst Hhead].
  destruct (Z.eqb_spec (StatusCode resp) StatusOK) as [Hok|Hnok].
  { cbn [fst snd]. split; [left; exact Hst|]. intros Hh _.
    destruct (Hhead Hh) as (_ & Hex & _). rewrite Hst. apply Hex, Hok. }
  destruct (Z.eqb_spec (StatusCode resp) StatusNotFound) as [Hnf|Hnnf].
  2: { cbn [fst snd]. split; [left; exact Hst | discriminate]. }
  change (withAuth es (SetContentType "application/json" _))
    with (putRequest es c).
  unfold doRequestWithRetry.
  destruct (retryLoop_put (Z.to_nat (maxRetries + 1)) 0 retryBackoff None None w1)
    as [Hc Hs].
  pose proof (doRequestWithRetry_some (putRequest es c) w1) as Hsome.
  unfold doRequestWithRetry in Hsome.
  destruct (retryLoop (Z.to_nat (maxRetries + 1)) 0 retryBackoff (putRequest es c)
              None None w1) as [w2 [[r|] [e|]]] eqn:Hrun; cbn [fst snd] in *.
  - cbv beta iota. rewrite <- Hst. split; [exact Hc | discriminate].
  - cbv beta iota. rewrite <- Hst.
    destruct (Z.leb_spec StatusMultipleChoices (StatusCode r)) as [Hge|Hlt];
      cbn [fst snd]; (split; [exact Hc|]); [discriminate|].
    intros Hh _. destruct (Hhead Hh) as (Hh1 & _).
    exists indexMapping. apply (Hs Hh1 r eq_refl Hlt).
  - cbv beta iota. rewrite <- Hst. split; [exact Hc | discriminate].
  - congruence.
Qed.

(** X5: [EnsureIndex] asks before it creates.  It sends the existence
    check once (or nothing, when the URL does not parse), and the creation
    request, at most [maxRetries + 1] times, only after the check was
    answered with 404: a check that fails or is answered with any other
    status is followed by no request at all. *)
Theorem ensure_index_creates_only_after_404 :
  forall (parses : string -> bool) (w : World),
    exists k,
      (k <= Z.to_nat (maxRetries + 1))%nat /\
      requests (log (fst (EnsureIndex parses es c w))) =
        requests (log w)
        ++ (if parses (indexURL es) then [headRequest es c] else [])
        ++ replicate k (putRequest es c) /\
      (k <> 0%nat ->
       exists w1 resp,
         Do (headRequest es c) w = (w1, inr resp) /\
         StatusCode resp = StatusNotFound).
Proof.
  intros parses w. unfold EnsureIndex, indexExists, NewRequestWithContext.
  destruct (parses (indexURL es)) eqn:Hparses.
  2: { exists 0%nat. cbn. rewrite app_nil_r. split; [lia|]. split; [reflexivity | lia]. }
  fold (headRequest es c).
  destruct (Do (headRequest es c) w) as [w1 [e|resp]] eqn:HDo;
    pose proof (Do_log _ _ _ _ HDo) as Hlog.
  { exists 0%nat. cbn [fst replicate]. rewrite Hlog, app_nil_r.
    unfold requests. rewrite flat_map_app. split; [lia|]. split; [reflexivity | lia]. }
  assert (Hhead : requests (log w1) = requests (log w) ++ [headRequest es c]).
  { rewrite Hlog. unfold requests. rewrite flat_map_app. reflexivity. }
  destruct (StatusCode resp =? StatusOK).
  { exists 0%nat. cbn [fst replicate]. rewrite app_nil_r.
    split; [lia|]. split; [exact Hhead | lia]. }
  destruct (Z.eqb_spec (StatusCode resp) StatusNotFound) as [Hnf|Hnnf].
  2: { exists 0%nat. cbn [fst replicate]. rewrite app_nil_r.
       split; [lia|]. split; [exact Hhead | lia]. }
  change (withAuth es (SetContentType "application/json" _))
    with (putRequest es c).
  destruct (doRequestWithRetry_trace (putRequest es c) w1) as (k & Hk & Hput).
  exists k. split; [lia|]. split; [|intros _; eauto].
  assert (Hreq : requests (log (fst (doRequestWithRetry (putRequest es c) w1))) =
                 requests (log w) ++ [headRequest es c] ++ replicate k (putRequest es c)).
  { rewrite Hput. unfold requests at 1. rewrite flat_map_app.
    fold (requests (log w1)). fold (requests (attemptsTrace (putRequest es c) 0 retryBackoff k)).
    rewrite requests_trace, Hhead, <- app_assoc. reflexivity. }
  destruct (doRequestWithRetry (putRequest es c) w1) as [w2 [[r|] [e|]]];
    cbn [fst] in *; try exact Hreq.
  destruct (StatusMultipleChoices <=? StatusCode r); exact Hreq.
Qed.
End Lossy.

Lemma ensure_index_success_means_index_witness :
  created sampleClient (store lossy)
    (store (fst (EnsureIndex anyURL sampleClient Background lossy))) /\
  exists mapping,
    store (fst (EnsureIndex anyURL sampleClient Background lossy))
      !! indexURL sampleClient = Some mapping.
Proof.
  destruct (ensure_index_success_means_index sampleClient Background anyURL lossy)
    as [Hc Hs].
  split; [exact Hc|]. apply Hs; reflexivity.
Defined.

End RetryProofs.

(** ** The calls of the client *)
Module CallsProofs.
Import Elasticsearch ClientCalls ClientSpec IndexSpec CallsSpec.
Import ClientProofs IndexProofs RetryProofs.

Section Calls.
Variable parses : string -> bool.
Variable formatRFC3339 : Time -> option string.
Variable encode : Json.value -> string.
Variable decode : string -> error + SearchResponse.

(** X6: [NewClient] sends one GET to the host and never a second one: it
    returns the client exactly when this one request is answered with a
    status below 300, and otherwise a nil client with the wrapped error,
    be the failure a transient 5xx. *)
Theorem new_client_pings_once :
  forall (host index username password : string) (w : World),
    parses host = true ->
    let es := mkClient host index username password in
    exists w1 answer,
      Do (pingRequest es) w = (w1, answer) /\
      fst (NewClient parses host index username password w) = w1 /\
      log w1 = log w ++ [EvDo (pingRequest es)] /\
      match answer with
      | inr resp =>
          if StatusCode resp <? StatusMultipleChoices
          then snd (NewClient parses host index username password w) = (Some es, None)
          else exists e,
              snd (NewClient parses host index username password w) =
              (None, Some (Wrapf "failed to connect to Elasticsearch" e))
      | inl e =>
          snd (NewClient parses host index username password w) =
          (None, Some (Wrapf "failed to connect to Elasticsearch" e))
      end.
Proof.
  intros h i u p w Hparses es.
  unfold NewClient, Ping, NewRequestWithContext. cbn [host]. rewrite Hparses.
  fold es. change (withAuth es _) with (pingRequest es).
  destruct (Do (pingRequest es) w) as [w1 [e|resp]] eqn:HDo;
    pose proof (Do_log _ _ _ _ HDo) as Hlog.
  - exists w1, (inl e). cbn. auto.
  - exists w1, (inr resp).
    destruct (Z.leb_spec StatusMultipleChoices (StatusCode resp)) as [Hge|Hlt].
    + destruct (Z.ltb_spec (StatusCode resp) StatusMultipleChoices); [lia|].
      cbn. repeat split; eauto.
    + destruct (Z.ltb_spec (StatusCode resp) StatusMultipleChoices); [|lia].
      cbn. auto.
Qed.

(** X7: the accounting of [IndexDocument].  A call increments the request
    counter at most once: by ("index", "success") exactly when it returns
    nil, by ("index", "error") when the request was sent and failed or was
    answered with 300 or more.  A call that fails before anything is sent
    (a document that cannot be marshalled, a URL that does not parse)
    increments nothing and leaves the world as it was.  Whatever is sent is
    the same POST of the encoded document to [host/index/_doc], at most
    [maxRetries + 1] times. *)
Theorem index_document_accounting :
  forall (es : Client) (c : Context) (doc : CodeDocument) (w : World) (m : Counters),
    let '(w', m', err) := IndexDocument parses formatRFC3339 encode es c doc w m in
    (err = None <-> m' = Inc "index" "success" m) /\
    (err <> None -> m' = m \/ m' = Inc "index" "error" m) /\
    (m' = m -> w' = w) /\
    (exists data k,
       (k <= Z.to_nat (maxRetries + 1))%nat /\
       (m' <> m -> Marshal formatRFC3339 doc = inr data /\ (1 <= k)%nat) /\
       requests (log w') =
       requests (log w) ++ replicate k (postRequest es c (docURL es) (encode data))).
Proof.
  intros es c doc w m. unfold IndexDocument, NewRequestWithContext, Inc.
  assert (Hne : forall x : string * string, m ++ [x] <> m).
  { intros x H. apply (f_equal (@length _)) in H. rewrite length_app in H.
    cbn in H. lia. }
  assert (Hnone : forall data,
            requests (log w) =
            requests (log w) ++ replicate 0 (postRequest es c (docURL es) (encode data))).
  { intros data. cbn. rewrite app_nil_r. reflexivity. }
  assert (Hne' : forall x : string * string, m <> m ++ [x]).
  { intros x H. symmetry in H. destruct (Hne _ H). }
  destruct (Marshal formatRFC3339 doc) as [e|data] eqn:Hmarshal.
  { split; [split; [discriminate | intros H; destruct (Hne' _ H)]|].
    split; [auto|]. split; [reflexivity|].
    exists Json.JNull, 0%nat. split; [lia|]. split; [congruence | apply Hnone]. }
  destruct (parses (docURL es)).
  2: { split; [split; [discriminate | intros H; destruct (Hne' _ H)]|].
       split; [auto|]. split; [reflexivity|].
       exists data, 0%nat. split; [lia|]. split; [congruence | apply Hnone]. }
  change (withAuth es (SetContentType "application/json" _))
    with (postRequest es c (docURL es) (encode data)).
  set (req := postRequest es c (docURL es) (encode data)).
  pose proof (doRequestWithRetry_some req w) as Hsome.
  destruct (doRequestWithRetry_trace req w) as (k & Hk & Hlog).
  assert (Hreq : requests (log (fst (doRequestWithRetry req w))) =
                 requests (log w) ++ replicate k req).
  { rewrite Hlog. unfold requests. rewrite flat_map_app.
    f_equal. apply requests_trace. }
  assert (Hsent : forall w1 : World,
            requests (log w1) = requests (log w) ++ replicate k req ->
            exists data' k',
              (k' <= Z.to_nat (maxRetries + 1))%nat /\
              (True -> inr data = @inr error _ data' /\ (1 <= k')%nat) /\
              requests (log w1) =
              requests (log w) ++
              replicate k' (postRequest es c (docURL es) (encode data'))).
  { intros w1 H. exists data, k. split; [lia|]. split; [|exact H].
    intros _. split; [reflexivity | lia]. }
  destruct (doRequestWithRetry req w) as [w1 [[resp|] [e|]]]; cbn [fst snd] in *.
  - split; [split; [discriminate | intros H; apply app_inv_head in H; discriminate H]|].
    split; [auto|]. split; [intros H; destruct (Hne _ H)|].
    destruct (Hsent w1 Hreq) as (d & k' & H1 & H2 & H3). exists d, k'. auto.
  - destruct (StatusMultipleChoices <=? StatusCode resp).
    + split; [split; [discriminate | intros H; apply app_inv_head in H; discriminate H]|].
      split; [auto|]. split; [intros H; destruct (Hne _ H)|].
      destruct (Hsent w1 Hreq) as (d & k' & H1 & H2 & H3). exists d, k'. auto.
    + split; [split; reflexivity|].
      split; [congruence|]. split; [intros H; destruct (Hne _ H)|].
      destruct (Hsent w1 Hreq) as (d & k' & H1 & H2 & H3). exists d, k'. auto.
  - split; [split; [discriminate | intros H; apply app_inv_head in H; discriminate H]|].
    split; [auto|]. split; [intros H; destruct (Hne _ H)|].
    destruct (Hsent w1 Hreq) as (d & k' & H1 & H2 & H3). exists d, k'. auto.
  - congruence.
Qed.



End Calls.

Lemma new_client_pings_once_witness :
  exists w1 answer,
    Do (pingRequest sampleClient) starting = (w1, answer) /\
    fst (NewClient anyURL "http://es:9200" "code" "" "" starting) = w1 /\
    log w1 = log starting ++ [EvDo (pingRequest sampleClient)] /\
    match answer with
    | inr resp =>
        if StatusCode resp <? StatusMultipleChoices
        then snd (NewClient anyURL "http://es:9200" "code" "" "" starting)
             = (Some sampleClient, None)
        else exists e,
            snd (NewClient anyURL "http://es:9200" "code" "" "" starting) =
            (None, Some (Wrapf "failed to connect to Elasticsearch" e))
    | inl e =>
        snd (NewClient anyURL "http://es:9200" "code" "" "" starting) =
        (None, Some (Wrapf "failed to connect to Elasticsearch" e))
    end.
Proof.
  exact (new_client_pings_once anyURL "http://es:9200" "code" "" "" starting eq_refl).
Defined.

End CallsProofs.

(** ** One file: what is counted, what is recorded *)
Module FileProofs.
Import GoStrings Elasticsearch Parser FileSpec ParserProofs.

Lemma collectImports_Some : forall specs (l : list string),
  collectImports specs (Some l) =
  Some (l ++ map (fun imp => Trim (PathValue imp) "034"%char) specs).
Proof.
  induction specs as [|imp rest IH]; intros l; cbn [collectImports map].
  - rewrite app_nil_r. reflexivity.
  - cbn [append]. rewrite IH, <- app_assoc. reflexivity.
Qed.

Lemma collectImports_nil specs :
  collectImports specs None =
  match specs with
  | [] => None
  | _ => Some (map (fun imp => Trim (PathValue imp) "034"%char) specs)
  end.
Proof.
  destruct specs as [|imp rest]; [reflexivity|].
  cbn [collectImports append]. rewrite collectImports_Some. reflexivity.
Qed.

Lemma noQuote_String a s :
  noQuote (String a s) = negb (Ascii.eqb a "034"%char) && noQuote s.
Proof. reflexivity. Qed.

Lemma TrimRight_quoted : forall p,
  noQuote p = true -> TrimRight (p +:+ dquote) "034"%char = p.
Proof.
  induction p as [|a p IH]; intros Hp; [reflexivity|].
  rewrite noQuote_String in Hp. apply andb_true_iff in Hp as [Ha Hp].
  rewrite append_String. cbn [TrimRight]. rewrite (IH Hp).
  apply negb_true_iff in Ha. rewrite Ha. destruct p; reflexivity.
Qed.

Lemma Trim_quoted p : noQuote p = true -> Trim (quoted p) "034"%char = p.
Proof.
  intros Hp. unfold Trim, quoted, dquote. rewrite append_String, append_Empty.
  cbn [TrimLeft]. rewrite Ascii.eqb_refl.
  destruct p as [|a p]; [reflexivity|].
  rewrite append_String. cbn [TrimLeft].
  pose proof Hp as Hp'. rewrite noQuote_String in Hp'.
  apply andb_true_iff in Hp' as [Ha _]. apply negb_true_iff in Ha. rewrite Ha.
  rewrite <- append_String. apply (TrimRight_quoted _ Hp).
Qed.

Lemma TrimRight_noQuote : forall s, noQuote s = true -> TrimRight s "034"%char = s.
Proof.
  induction s as [|a s IH]; intros Hs; [reflexivity|].
  rewrite noQuote_String in Hs. apply andb_true_iff in Hs as [Ha Hs].
  cbn [TrimRight]. rewrite (IH Hs). apply negb_true_iff in Ha. rewrite Ha.
  destruct s; reflexivity.
Qed.

Lemma Trim_noQuote s : noQuote s = true -> Trim s "034"%char = s.
Proof.
  intros Hs. unfold Trim. destruct s as [|a s]; [reflexivity|].
  pose proof Hs as Hs'. rewrite noQuote_String in Hs'.
  apply andb_true_iff in Hs' as [Ha _]. apply negb_true_iff in Ha.
  cbn [TrimLeft]. rewrite Ha. apply TrimRight_noQuote, Hs.
Qed.

(** X9: the imports recorded for a file.  Without import declarations
    the slice stays nil, and every document of the file is marshalled
    with [imports: null].  Otherwise it holds one entry per declaration, in
    their order: the path without its quotes for a path written between
    double quotes, and the literal as it stands, back quotes included, for
    a literal without a double quote. *)
Theorem imports_are_unquoted_paths :
  forall (repo filePath content : string) (node : File),
    let v := visitorOf repo filePath content node in
    (FileImports node = [] ->
     imports v = None /\
     forall formatRFC3339 funcDecl now doc,
       extractFunctionDoc funcDecl content repo filePath (pkgName v) (imports v) now
         = Some doc ->
       marshalField formatRFC3339 doc FImports = inr Json.JNull) /\
    (forall paths,
       paths <> [] ->
       forallb noQuote paths = true ->
       FileImports node = map (fun p => mkImportSpec (quoted p)) paths \/
       FileImports node = map mkImportSpec paths ->
       imports v = Some paths).
Proof.
  intros repo filePath content node v. subst v. unfold visitorOf.
  cbn [imports pkgName]. split.
  - intros ->. cbn [collectImports]. split; [reflexivity|].
    intros formatRFC3339 funcDecl now doc. unfold extractFunctionDoc.
    destruct (slice_string content _ _); [|discriminate].
    intros [= <-]. reflexivity.
  - intros paths Hne Hq Himports.
    assert (Hmap : map (fun imp => Trim (PathValue imp) "034"%char)
                     (map (fun p => mkImportSpec (quoted p)) paths) = paths /\
                   map (fun imp => Trim (PathValue imp) "034"%char)
                     (map mkImportSpec paths) = paths).
    { clear Hne Himports. induction paths as [|p paths IH]; [split; reflexivity|].
      cbn [forallb] in Hq. apply andb_true_iff in Hq as [Hp Hq].
      destruct (IH Hq) as [IH1 IH2]. cbn [map PathValue].
      rewrite IH1, IH2, (Trim_quoted _ Hp), (Trim_noQuote _ Hp). split; reflexivity. }
    destruct Hmap as [H1 H2]. rewrite collectImports_nil.
    destruct Himports as [-> | ->]; destruct paths as [|p paths]; try congruence;
      cbn [map] in *; [rewrite H1 | rewrite H2]; reflexivity.
Qed.

Lemma imports_are_unquoted_paths_witness :
  imports (visitorOf "repo" "a.go" twoSource twoDecls) = Some ["fmt"].
Proof.
  apply (proj2 (imports_are_unquoted_paths "repo" "a.go" twoSource twoDecls)).
  - discriminate.
  - reflexivity.
  - left. reflexivity.
Defined.








End FileProofs.

(** ** What the walk hands over, and what it reports *)
Module HandedProofs.
Import GoStrings Walker WalkSpec HandedSpec WalkProofs.

Lemma sourceAt_go path : Forall (fun p => isGo p = true) (sources (sourceAt path)).
Proof.
  unfold sourceAt. destruct (String.eqb (Ext path) ".go") eqn:Hext; cbn.
  - constructor; [exact Hext | constructor].
  - constructor.
Qed.

Lemma sources_app l1 l2 : sources (l1 ++ l2) = sources l1 ++ sources l2.
Proof. unfold sources. apply flat_map_app. Qed.

(** Every path among the items of a tree has the extension of a Go
    file. *)
Lemma items_go n : forall path, Forall (fun p => isGo p = true) (sources (items path n)).
Proof.
  induction n as [name|name d e|name readErr entries IH] using Node_forall_ind;
    intros path.
  - apply sourceAt_go.
  - constructor.
  - destruct readErr as [e|]; [constructor|].
    rewrite items_Dir. destruct (prunedName name); [constructor|].
    rewrite sources_app. apply Forall_app. split; [apply sourceAt_go|].
    unfold itemsOf. induction IH as [|k rest Hk _ IHrest]; [constructor|].
    cbn [flat_map]. rewrite sources_app. apply Forall_app. split; [apply Hk | exact IHrest].
Qed.

Section Handed.
Variable indexFile : string -> string -> Z * option error.

(** Going through the items: what is handed over is a prefix of the
    sources, the failures of [indexFile] are recorded and never returned,
    and the error returned is the first error of traversal. *)
Lemma consume_handed l : forall fw,
  exists handed,
    indexed (fst (consume indexFile l fw)) = indexed fw ++ handed /\
    failed (fst (consume indexFile l fw)) =
      failed fw ++ List.filter (fails indexFile (repoName fw)) handed /\
    totalCount (fst (consume indexFile l fw)) =
      totalCount fw + countOf indexFile (repoName fw) handed /\
    repoName (fst (consume indexFile l fw)) = repoName fw /\
    (exists rest, sources l = handed ++ rest) /\
    snd (consume indexFile l fw) = option_map OSError (head (traversalErrors l)) /\
    (snd (consume indexFile l fw) = None -> handed = sources l).
Proof.
  induction l as [|[p|e] l IH]; intros fw.
  - exists []. cbn. rewrite !app_nil_r. repeat split; try lia; eauto.
  - destruct (IH (indexOne indexFile fw p))
      as (handed & Hi & Hf & Ht & Hr & [rest Hs] & He & Hall).
    assert (Hone : repoName (indexOne indexFile fw p) = repoName fw /\
                   indexed (indexOne indexFile fw p) = indexed fw ++ [p] /\
                   failed (indexOne indexFile fw p) =
                     failed fw ++ List.filter (fails indexFile (repoName fw)) [p] /\
                   totalCount (indexOne indexFile fw p) + countOf indexFile (repoName fw) handed =
                     totalCount fw + countOf indexFile (repoName fw) (p :: handed)).
    { unfold indexOne, countOf. cbn [List.filter fold_right]. unfold fails.
      destruct (indexFile (repoName fw) p) as [c [e|]];
        cbn [repoName indexed failed totalCount]; rewrite ?app_nil_r;
        repeat split; lia. }
    destruct Hone as (Hrepo & Hone_i & Hone_f & Hone_t).
    rewrite Hrepo in *. rewrite Hone_i in Hi. rewrite Hone_f in Hf. rewrite Hone_t in Ht.
    exists (p :: handed). cbn [consume].
    change (sources (Source p :: l)) with (p :: sources l).
    change (traversalErrors (Source p :: l)) with (traversalErrors l).
    rewrite Hi, Hf, Ht, Hr, <- !app_assoc.
    split; [reflexivity|]. split.
    { f_equal. cbn [List.filter]. destruct (fails indexFile (repoName fw) p); reflexivity. }
    split; [reflexivity|]. split; [reflexivity|].
    split; [exists rest; rewrite Hs; reflexivity|].
    split; [exact He|]. intros H. rewrite (Hall H). reflexivity.
  - exists []. cbn [consume fst snd List.filter countOf fold_right].
    rewrite !app_nil_r. split; [reflexivity|]. split; [reflexivity|].
    split; [lia|]. split; [reflexivity|].
    split; [exists (sources (TraversalError e :: l)); reflexivity|].
    split; [reflexivity | discriminate].
Qed.

(** X12: what a walk hands to [indexFile], whatever the tree.  Every path
    handed over has the extension [.go]; the paths recorded as failed
    are those handed over on which [indexFile] failed, and the count is
    the sum over the others.  A failure of [indexFile] is never the
    error of the walk: the walk returns the first error of traversal
    that it meets, and nil when it meets none, in which case every source
    of the tree outside of the pruned directories was handed over. *)
Theorem walk_hands_over_go_files :
  forall (root : string) (n : Node) (fw : fileWalker),
    let r := Walk (walk indexFile) root n fw in
    exists handed,
      indexed (fst r) = indexed fw ++ handed /\
      Forall (fun p => isGo p = true) handed /\
      failed (fst r) = failed fw ++ List.filter (fails indexFile (repoName fw)) handed /\
      totalCount (fst r) = totalCount fw + countOf indexFile (repoName fw) handed /\
      repoName (fst r) = repoName fw /\
      snd r = option_map OSError (head (traversalErrors (items root n))) /\
      (snd r = None -> handed = sources (items root n)).
Proof.
  intros root n fw r. subst r. rewrite Walk_items.
  destruct (consume_handed (items root n) fw)
    as (handed & Hi & Hf & Ht & Hr & [rest Hs] & He & Hall).
  exists handed. repeat (split; [assumption|]).
  split; [|repeat (split; [assumption|]); assumption].
  pose proof (items_go n root) as Hgo. rewrite Hs in Hgo.
  apply Forall_app in Hgo. tauto.
Qed.

(** X13: the walker tells a source by the extension of its path alone.
    A directory whose path ends in [.go], and that is not pruned, is
    handed to [indexFile] like a file, and the walk then descends into
    it. *)
Theorem directory_named_like_a_source :
  forall (path name : string) (entries : list Node) (fw : fileWalker),
    prunedName name = false ->
    isGo path = true ->
    Walk (walk indexFile) path (Dir name None entries) fw =
    consume indexFile (itemsOf path entries) (indexOne indexFile fw path).
Proof.
  intros path name entries fw Hname Hgo.
  rewrite Walk_items, items_Dir, Hname. unfold sourceAt.
  unfold isGo in Hgo. rewrite Hgo. reflexivity.
Qed.
End Handed.

Lemma directory_named_like_a_source_witness :
  Walk (walk failsOnDirs) "/repos/repo/gen.go" (Dir "gen.go" None [File "types.go"])
    (mkFileWalker "repo" 0 [] []) =
  (mkFileWalker "repo" 1 ["/repos/repo/gen.go"; "/repos/repo/gen.go/types.go"]
     ["/repos/repo/gen.go"], None).
Proof.
  rewrite (directory_named_like_a_source failsOnDirs "/repos/repo/gen.go" "gen.go"
             [File "types.go"] (mkFileWalker "repo" 0 [] []) eq_refl eq_refl).
  reflexivity.
Defined.

End HandedProofs.

(** ** The metrics of the indexer *)
Module MetricsProofs.
Import GoStrings Walker Indexer WalkSpec RunSpec MetricsSpec WalkProofs RunProofs.

Lemma sumValues_add (fm : gmap string Z) (k : string) (c : Z) :
  sumValues (<[k := default 0 (fm !! k) + c]> fm) = sumValues fm + c.
Proof.
  unfold sumValues.
  assert (Hcomm : forall z1 z2 y : Z, z1 + (z2 + y) = z2 + (z1 + y)) by (intros; lia).
  destruct (fm !! k) as [v|] eqn:Hk; cbn [default]; unfold id.
  - rewrite <- insert_delete_eq.
    rewrite map_fold_insert_L; [|intros; apply Hcomm | apply lookup_delete_eq].
    rewrite (map_fold_delete_L _ _ k v fm); [lia | intros; apply Hcomm | exact Hk].
  - rewrite map_fold_insert_L; [lia | intros; apply Hcomm | exact Hk].
Qed.

Section Accounting.
Variable indexFile : string -> string -> Z * option error.
Variable config : Config.

Lemma indexEntry_metrics entry totalCount m :
  let r := indexEntry indexFile config entry totalCount m in
  ReposIndexed (fst r) =
    ReposIndexed m + (if counted indexFile config entry then 1 else 0) /\
  errorLog (fst r) = errorLog m ++ errorsOf indexFile config [entry] /\
  sumValues (FunctionsIndexed (fst r)) + totalCount =
    sumValues (FunctionsIndexed m) + snd r.
Proof.
  unfold indexEntry, counted, errorsOf, repoError. cbn [flat_map].
  destruct (nodeIsDir entry); cbn [negb andb].
  2: { cbn. rewrite !app_nil_r. repeat split; lia. }
  unfold indexRepoIfValid. rewrite app_nil_r.
  destruct (gitMissing entry).
  { cbn. rewrite !app_nil_r. repeat split; lia. }
  unfold IndexRepository.
  destruct (walkAndIndexRepo indexFile _ _ entry) as [count [e|]];
    cbn [fst snd ReposIndexed FunctionsIndexed errorLog].
  - repeat split; lia.
  - rewrite sumValues_add, app_nil_r. repeat split; lia.
Qed.

Lemma indexEntries_metrics entries : forall totalCount m,
  let r := indexEntries indexFile config entries totalCount m in
  ReposIndexed (fst r) =
    ReposIndexed m + Z.of_nat (length (List.filter (counted indexFile config) entries)) /\
  errorLog (fst r) = errorLog m ++ errorsOf indexFile config entries /\
  sumValues (FunctionsIndexed (fst r)) + totalCount =
    sumValues (FunctionsIndexed m) + snd r.
Proof.
  induction entries as [|entry rest IH]; intros totalCount m.
  - cbn. rewrite app_nil_r. repeat split; lia.
  - cbn [indexEntries].
    destruct (indexEntry_metrics entry totalCount m) as (Hr & He & Hs).
    destruct (indexEntry indexFile config entry totalCount m) as [m1 total1].
    cbn [fst snd] in Hr, He, Hs.
    destruct (IH total1 m1) as (Hr' & He' & Hs'). cbv zeta.
    rewrite Hr', He', Hr, He. cbn [List.filter].
    replace (errorsOf indexFile config (entry :: rest))
      with (errorsOf indexFile config [entry] ++ errorsOf indexFile config rest)
      by (unfold errorsOf; cbn [flat_map]; rewrite app_nil_r; reflexivity).
    rewrite <- app_assoc. split; [|split; [reflexivity | lia]].
    destruct (counted indexFile config entry); cbn [length]; lia.
Qed.

(** X14: the accounting of one [IndexAllRepos].  When the repos directory
    cannot be read the metrics are left alone.  Otherwise the call
    returns a nil error whatever became of the repositories, and every
    directory entry is either counted once in [ReposIndexed] (a directory
    without [.git] among them, with no function) or logged once with the
    error of its walk, in the order of the directory; the entries that
    are not directories are neither.  The total returned is what the
    call has added to the [FunctionsIndexed] counters, all repositories
    together. *)
Theorem index_all_repos_accounting :
  forall (root : string + list Node) (m : Metrics),
    let r := indexAll indexFile config root m in
    match root with
    | inl e =>
        r = (m, (0, Some (Wrapf "failed to read repos directory" (OSError e))))
    | inr entries =>
        snd (snd r) = None /\
        ReposIndexed (fst r) =
          ReposIndexed m +
          Z.of_nat (length (List.filter (counted indexFile config) entries)) /\
        errorLog (fst r) = errorLog m ++ errorsOf indexFile config entries /\
        sumValues (FunctionsIndexed (fst r)) =
          sumValues (FunctionsIndexed m) + fst (snd r) /\
        (forall entry,
            nodeIsDir entry = true -> gitMissing entry = true ->
            counted indexFile config entry = true)
    end.
Proof.
  intros [e|entries] m r; subst r; [reflexivity|].
  unfold indexAll.
  destruct (indexEntries_metrics entries 0 m) as (Hr & He & Hs).
  destruct (indexEntries indexFile config entries 0 m) as [m1 total1].
  cbn [fst snd] in *. split; [reflexivity|]. split; [exact Hr|].
  split; [exact He|]. split; [lia|].
  intros entry Hdir Hgit. unfold counted, repoError. rewrite Hdir, Hgit. reflexivity.
Qed.

(** X15: a repository whose walk meets an error of traversal adds
    nothing: neither to the total nor to [FunctionsIndexed] nor to
    [ReposIndexed], although the files that came before the error were
    handed to [indexFile]; the repository is logged with the error. *)
Theorem failed_walk_counts_nothing :
  forall (entry : Node) (totalCount : Z) (m : Metrics)
         (before after : list item) (e : string),
    let repoPath := Join (ReposPath config) (nodeName entry) in
    nodeIsDir entry = true ->
    gitMissing entry = false ->
    items repoPath entry = before ++ TraversalError e :: after ->
    forallb isSource before = true ->
    indexEntry indexFile config entry totalCount m =
      (mkMetrics (ReposIndexed m) (FunctionsIndexed m)
         (errorLog m ++ [(nodeName entry, OSError e)]), totalCount) /\
    indexed (fst (Walk (walk indexFile) repoPath entry
                    (mkFileWalker (Base repoPath) 0 [] []))) = sources before.
Proof.
  intros entry totalCount m before after e repoPath Hdir Hgit Hitems Hbefore.
  assert (Hwalk : exists fw',
             Walk (walk indexFile) repoPath entry (mkFileWalker (Base repoPath) 0 [] [])
               = (fw', Some (OSError e)) /\
             indexed fw' = sources before).
  { rewrite Walk_items, Hitems, consume_app.
    destruct (consume_sources indexFile before (mkFileWalker (Base repoPath) 0 [] [])
                Hbefore) as (fw' & -> & _ & Hi & _).
    exists fw'. split; [reflexivity | exact Hi]. }
  destruct Hwalk as (fw' & Hwalk & Hi). split; [|rewrite Hwalk; exact Hi].
  unfold indexEntry, indexRepoIfValid, IndexRepository, walkAndIndexRepo.
  rewrite Hdir, Hgit. cbn [negb]. fold repoPath. rewrite Hwalk. reflexivity.
Qed.
End Accounting.

Lemma failed_walk_counts_nothing_witness :
  indexEntry twoFunctions reposConfig brokenRepo 0 noMetrics =
    (mkMetrics 0 ∅ [("app", OSError "permission denied")], 0) /\
  indexed (fst (Walk (walk twoFunctions) "/repos/app" brokenRepo
                  (mkFileWalker "app" 0 [] []))) = ["/repos/app/a.go"].
Proof.
  exact (failed_walk_counts_nothing twoFunctions reposConfig brokenRepo 0 noMetrics
           [Source "/repos/app/a.go"] [Source "/repos/app/c.go"] "permission denied"
           eq_refl eq_refl eq_refl eq_refl).
Defined.

(** *** The counter of one repository *)

Lemma list_ascii_append (s1 s2 : string) :
  list_ascii_of_string (s1 +:+ s2) = list_ascii_of_string s1 ++ list_ascii_of_string s2.
Proof.
  induction s1 as [|a s1 IH]; [reflexivity|].
  change (String a s1 +:+ s2) with (String a (s1 +:+ s2)).
  cbn [list_ascii_of_string app]. rewrite IH. reflexivity.
Qed.

Lemma lastElement_app : forall l rest suffix,
  forallb (fun a => negb (Ascii.eqb a slash)) l = true ->
  lastElement (l ++ slash :: rest) suffix = rev l ++ suffix.
Proof.
  induction l as [|a l IH]; intros rest suffix Hl.
  - cbn [app lastElement rev]. rewrite Ascii.eqb_refl. reflexivity.
  - cbn [forallb] in Hl. apply andb_true_iff in Hl as [Ha Hl].
    apply negb_true_iff in Ha. cbn [app lastElement rev]. rewrite Ha.
    rewrite (IH rest (a :: suffix) Hl), <- app_assoc. reflexivity.
Qed.

(** The label of a repository is the name of its directory. *)
Lemma Base_Join dir name : plainName name = true -> Base (Join dir name) = name.
Proof.
  unfold plainName, Base, Join. intros Hname.
  apply andb_true_iff in Hname as [Hne Hplain].
  assert (Hpath : String.eqb (dir +:+ String slash name) "" = false).
  { destruct dir; reflexivity. }
  rewrite Hpath, list_ascii_append. cbn [list_ascii_of_string].
  rewrite rev_app_distr. cbn [rev]. rewrite <- app_assoc. cbn [app].
  assert (Hrev : forallb (fun a => negb (Ascii.eqb a slash))
                   (rev (list_ascii_of_string name)) = true).
  { rewrite forallb_forall in *. intros a Ha. apply Hplain. apply in_rev. exact Ha. }
  destruct (rev (list_ascii_of_string name)) as [|a l] eqn:Hl.
  { apply (f_equal (@rev ascii)) in Hl. rewrite rev_involutive in Hl. cbn in Hl.
    destruct name; [discriminate Hne | discriminate Hl]. }
  pose proof Hrev as Hrev'. cbn [forallb] in Hrev'.
  apply andb_true_iff in Hrev' as [Ha _]. apply negb_true_iff in Ha.
  cbn [app stripSlashes]. rewrite Ha.
  change (a :: l ++ slash :: rev (list_ascii_of_string dir))
    with ((a :: l) ++ slash :: rev (list_ascii_of_string dir)).
  rewrite (lastElement_app _ _ [] Hrev), app_nil_r, <- Hl, rev_involutive.
  destruct (list_ascii_of_string name) as [|b k] eqn:Hk.
  { destruct name; [discriminate Hne | discriminate Hk]. }
  rewrite <- Hk. apply string_of_list_ascii_of_string.
Qed.

Section Labels.
Variable indexFile : string -> string -> Z * option error.
Variable config : Config.

Lemma indexEntry_label entry totalCount m :
  plainName (nodeName entry) = true ->
  FunctionsIndexed (fst (indexEntry indexFile config entry totalCount m)) =
  match added indexFile config entry with
  | Some count =>
      <[nodeName entry :=
          default 0 (FunctionsIndexed m !! nodeName entry) + count]> (FunctionsIndexed m)
  | None => FunctionsIndexed m
  end.
Proof.
  intros Hname. unfold indexEntry, added, indexRepoIfValid, IndexRepository.
  destruct (nodeIsDir entry); cbn [negb andb]; [|reflexivity].
  destruct (gitMissing entry); cbn [negb]; [reflexivity|].
  rewrite (Base_Join _ _ Hname).
  destruct (walkAndIndexRepo indexFile _ _ entry) as [count [e|]]; reflexivity.
Qed.

Lemma indexEntries_other entries : forall totalCount m name,
  Forall (fun entry => plainName (nodeName entry) = true) entries ->
  ~ In name (map nodeName entries) ->
  FunctionsIndexed (fst (indexEntries indexFile config entries totalCount m)) !! name =
  FunctionsIndexed m !! name.
Proof.
  induction entries as [|entry rest IH]; intros totalCount m name Hplain Hnot;
    [reflexivity|].
  apply Forall_cons in Hplain as [Hentry Hplain]. cbn [indexEntries].
  pose proof (indexEntry_label entry totalCount m Hentry) as Hlabel.
  destruct (indexEntry indexFile config entry totalCount m) as [m1 total1].
  cbn [fst] in Hlabel. rewrite IH; [|exact Hplain|intros H; apply Hnot; right; exact H].
  rewrite Hlabel. destruct (added indexFile config entry); [|reflexivity].
  apply lookup_insert_ne. intros Heq. apply Hnot. left. exact Heq.
Qed.

Lemma indexEntries_label entries : forall totalCount m entry,
  Forall (fun entry => plainName (nodeName entry) = true) entries ->
  NoDup (map nodeName entries) ->
  In entry entries ->
  FunctionsIndexed (fst (indexEntries indexFile config entries totalCount m))
    !! nodeName entry =
  match added indexFile config entry with
  | Some count => Some (default 0 (FunctionsIndexed m !! nodeName entry) + count)
  | None => FunctionsIndexed m !! nodeName entry
  end.
Proof.
  induction entries as [|first rest IH]; intros total m entry Hplain Hdup Hin;
    [destruct Hin|].
  apply Forall_cons in Hplain as [Hfirst Hplain].
  cbn [map] in Hdup. apply NoDup_cons in Hdup as [Hfresh Hdup].
  cbn [indexEntries].
  pose proof (indexEntry_label first total m Hfirst) as Hlabel.
  destruct (indexEntry indexFile config first total m) as [m1 total1].
  cbn [fst] in Hlabel. destruct Hin as [<-|Hin].
  - rewrite indexEntries_other; [|exact Hplain|].
    2: { intros H. apply Hfresh. apply list_elem_of_In. exact H. }
    rewrite Hlabel. destruct (added indexFile config first); [|reflexivity].
    apply lookup_insert_eq.
  - rewrite (IH total1 m1 entry Hplain Hdup Hin).
    assert (Hne : nodeName first <> nodeName entry).
    { intros Heq. apply Hfresh. rewrite Heq. apply list_elem_of_In.
      apply in_map. exact Hin. }
    rewrite Hlabel. destruct (added indexFile config first);
      rewrite ?lookup_insert_ne by exact Hne; reflexivity.
Qed.

(** X16: the counter of one repository.  In a repos directory (the names
    of the entries are plain and differ from each other), the label of a
    repository is the name of its directory, and one [IndexAllRepos] adds
    to the [FunctionsIndexed] counter of that label the functions indexed
    in the repository when its walk went through; the counter of an entry
    that is no directory, has no [.git], or whose walk failed is left as
    it was, and so are the counters of all other labels. *)
Theorem functions_indexed_per_repository :
  forall (entries : list Node) (m : Metrics),
    Forall (fun entry => plainName (nodeName entry) = true) entries ->
    NoDup (map nodeName entries) ->
    let after := FunctionsIndexed (fst (indexAll indexFile config (inr entries) m)) in
    (forall entry,
        In entry entries ->
        after !! nodeName entry =
        match added indexFile config entry with
        | Some count =>
            Some (default 0 (FunctionsIndexed m !! nodeName entry) + count)
        | None => FunctionsIndexed m !! nodeName entry
        end) /\
    (forall name,
        ~ In name (map nodeName entries) ->
        after !! name = FunctionsIndexed m !! name).
Proof.
  intros entries m Hplain Hdup after. subst after. unfold indexAll.
  pose proof (indexEntries_label entries 0 m) as Hlabel.
  pose proof (indexEntries_other entries 0 m) as Hother.
  destruct (indexEntries indexFile config entries 0 m) as [m1 total1].
  cbn [fst] in *. split.
  - intros entry Hin. apply Hlabel; assumption.
  - intros name Hnot. apply Hother; assumption.
Qed.
End Labels.

Lemma functions_indexed_per_repository_witness :
  FunctionsIndexed
    (fst (indexAll threeFunctions reposConfig sampleRoot noMetrics)) !! "app" = Some 3.
Proof.
  destruct (functions_indexed_per_repository threeFunctions reposConfig
              [Dir "app" None [Dir ".git" None []; File "main.go"]; File "README.md"]
              noMetrics) as [Hentry _].
  - repeat constructor.
  - apply NoDup_cons. split.
    { intros H. apply list_elem_of_In in H. destruct H as [H|[]]. discriminate H. }
    apply NoDup_cons. split; [intros H; apply list_elem_of_In in H; destruct H|].
    apply NoDup_nil. exact I.
  - exact (Hentry (Dir "app" None [Dir ".git" None []; File "main.go"])
             (or_introl eq_refl)).
Defined.

(** *** Invocations that overlap *)

Lemma find_none_holders l :
  sumOf (fun p => if holds p then 1%nat else 0%nat) l = 0%nat ->
  List.find holds l = None.
Proof.
  induction l as [|a l IH]; [reflexivity|]. cbn [sumOf List.find].
  destruct (holds a); [discriminate|]. exact IH.
Qed.

(** With at most the invocation [i] holding the mutex, the holder is
    found by looking at [i]. *)
Lemma find_unique : forall l i p p',
  l !! i = Some p ->
  sumOf (fun p => if holds p then 1%nat else 0%nat) l = (if holds p then 1%nat else 0%nat) ->
  List.find holds l = (if holds p then Some p else None) /\
  List.find holds (<[i := p']> l) = (if holds p' then Some p' else None).
Proof.
  induction l as [|a l IH]; intros [|i] p p' Hi Hsum; try discriminate Hi.
  - injection Hi as ->. cbn [sumOf] in Hsum.
    assert (Hrest : List.find holds l = None) by (apply find_none_holders; lia).
    cbn [List.find]. change (<[0%nat := p']> (p :: l)) with (p' :: l).
    cbn [List.find]. rewrite Hrest. split; [destruct (holds p) | destruct (holds p')];
      reflexivity.
  - change ((a :: l) !! S i) with (l !! i) in Hi. cbn [sumOf] in Hsum.
    pose proof (sumOf_lookup (fun p => if holds p then 1%nat else 0%nat) l i p Hi) as Hle.
    cbn beta in Hle.
    assert (Ha : holds a = false) by (destruct (holds a); [lia | reflexivity]).
    rewrite Ha in Hsum. cbn [Nat.add] in Hsum.
    change (<[S i := p']> (a :: l)) with (a :: <[i := p']> l).
    cbn [List.find]. rewrite Ha. apply (IH i p p' Hi Hsum).
Qed.

Section Serial.
Variable indexFile : string -> string -> Z * option error.
Variable config : Config.
Variable root : string + list Node.
Variable m0 : Metrics.

Abbreviation stepCall' := (stepCall indexFile config root).
Abbreviation run' := (run indexFile config root).
Abbreviation pending' := (pending indexFile config root).
Abbreviation sequential' := (sequential indexFile config root).
Abbreviation once := (fun m => fst (indexAll indexFile config root m)).

Abbreviation serial := (serial indexFile config root m0).

Lemma stepCall_serial i s s' :
  stepCall' i s = Some s' ->
  invariant indexFile config root s ->
  serial s -> serial s'.
Proof.
  unfold Indexer.stepCall, MetricsSpec.serial. intros Hstep Hinv Hser.
  destruct (calls s !! i) as [p|] eqn:Hi; [|discriminate Hstep].
  destruct (advance indexFile config root p (mu s) (metrics s))
    as [[[p' locked'] m']|] eqn:Hadv; [|discriminate Hstep].
  injection Hstep as <-.
  pose proof (sumOf_insert started (calls s) i p p' Hi) as Hstarted.
  assert (Hsum : sumOf (fun p => if holds p then 1%nat else 0%nat) (calls s) =
                 (if holds p then 1%nat else 0%nat)).
  { pose proof (proj1 Hinv) as Hmu. unfold holders in Hmu. rewrite Hmu.
    destruct (holds p) eqn:Hp.
    - rewrite (held_locked indexFile config root s i p Hinv Hi Hp).
      reflexivity.
    - destruct p as [| |entries totalCount|totalCount err|totalCount err];
        try discriminate Hp.
      + cbn [advance] in Hadv. destruct (mu s); [discriminate Hadv | reflexivity].
      + discriminate Hadv. }
  destruct (find_unique (calls s) i p p' Hi Hsum) as [Hfind Hfind'].
  unfold pending in *. cbn [calls metrics]. rewrite Hfind'. rewrite Hfind in Hser.
  destruct p as [| |[|entry rest] totalCount|totalCount err|totalCount err];
    cbn [advance] in Hadv.
  - destruct (mu s); [discriminate Hadv|]. injection Hadv as <- <- <-.
    cbn [holds finish started] in *.
    replace (sumOf started (<[i := AtReadDir]> (calls s)))
      with (S (sumOf started (calls s))) by lia.
    unfold sequential in *. rewrite Nat.iter_succ, <- Hser. reflexivity.
  - cbn [holds started] in *.
    destruct root as [e|entries] eqn:Hroot; injection Hadv as <- <- <-;
      cbn [holds started finish] in *;
      (replace (sumOf started (<[i := _]> (calls s)))
         with (sumOf started (calls s)) by lia);
      rewrite <- Hser.
    + reflexivity.
    + unfold indexAll.
      destruct (indexEntries indexFile config entries 0 (metrics s)); reflexivity.
  - injection Hadv as <- <- <-. cbn [holds started finish] in *.
    replace (sumOf started (<[i := _]> (calls s)))
      with (sumOf started (calls s)) by lia.
    rewrite <- Hser. reflexivity.
  - cbn [holds started finish] in *.
    destruct (indexEntry indexFile config entry totalCount (metrics s))
      as [m1 total1] eqn:Hentry.
    injection Hadv as <- <- <-. cbn [holds started finish] in *.
    replace (sumOf started (<[i := _]> (calls s)))
      with (sumOf started (calls s)) by lia.
    rewrite <- Hser. cbn [indexEntries]. rewrite Hentry. reflexivity.
  - injection Hadv as <- <- <-. cbn [holds started finish] in *.
    replace (sumOf started (<[i := _]> (calls s)))
      with (sumOf started (calls s)) by lia.
    rewrite <- Hser. reflexivity.
  - discriminate Hadv.
Qed.

Lemma serial_run schedule : forall s,
  invariant indexFile config root s -> serial s -> serial (run' schedule s).
Proof.
  induction schedule as [|i rest IH]; intros s Hinv Hser; [exact Hser|].
  cbn [Indexer.run]. destruct (stepCall' i s) as [s'|] eqn:Hstep.
  - apply IH.
    + exact (proj1 (stepCall_inv indexFile config root i s s' Hstep Hinv)).
    + exact (stepCall_serial i s s' Hstep Hinv Hser).
  - apply IH; assumption.
Qed.

Lemma finished_all l :
  Forall (fun p => finished p = true) l ->
  List.find holds l = None /\ sumOf started l = length l.
Proof.
  induction 1 as [|p l Hp _ [IH1 IH2]]; [split; reflexivity|].
  destruct p; try discriminate Hp. cbn [List.find holds sumOf started length].
  rewrite IH1, IH2. split; reflexivity.
Qed.
End Serial.

(** X17: invocations of [IndexAllRepos] that overlap leave the metrics as
    the same invocations would one after the other.  In every state they
    can reach, the metrics, completed by what the holder of the mutex has
    still to do, are those of as many whole invocations as have passed
    [Lock]; once all [n] have returned, the metrics are those of [n]
    invocations in a row. *)
Theorem overlapping_runs_are_serial :
  forall (indexFile : string -> string -> Z * option error) (config : Config)
         (root : string + list Node) (n : nat) (m : Metrics) (schedule : list nat),
    let s := run indexFile config root schedule (initial n m) in
    pending indexFile config root s =
      sequential indexFile config root (sumOf started (calls s)) m /\
    (Forall (fun p => finished p = true) (calls s) ->
     metrics s = sequential indexFile config root n m).
Proof.
  intros indexFile config root n m schedule s.
  assert (Hser : serial indexFile config root m s).
  { apply serial_run; [apply invariant_initial|].
    unfold serial, pending, initial. cbn [calls metrics].
    rewrite sumOf_replicate, Nat.mul_0_r.
    replace (List.find holds (replicate n AtLock)) with (@None Phase);
      [reflexivity|].
    induction n as [|k IH]; [reflexivity | exact IH]. }
  split; [exact Hser|]. intros Hall.
  destruct (finished_all (calls s) Hall) as [Hfind Hcount].
  unfold serial, pending in Hser. rewrite Hfind, Hcount in Hser.
  subst s. rewrite length_run in Hser. unfold initial in Hser. cbn [calls] in Hser.
  rewrite length_replicate in Hser. exact Hser.
Qed.

Lemma overlapping_runs_are_serial_witness :
  metrics (run threeFunctions reposConfig sampleRoot overlapping (initial 2 noMetrics))
  = sequential threeFunctions reposConfig sampleRoot 2 noMetrics.
Proof.
  apply (proj2 (overlapping_runs_are_serial threeFunctions reposConfig sampleRoot 2
                  noMetrics overlapping)).
  repeat constructor.
Defined.

End MetricsProofs.

(** ** The checkouts from one run to the next *)
Module CheckoutProofs.
Import GoStrings Indexer CloneSpec CheckoutSpec CloneProofs.

Lemma cloneTargets_app l1 l2 :
  cloneTargets (l1 ++ l2) = cloneTargets l1 ++ cloneTargets l2.
Proof. unfold cloneTargets. apply flat_map_app. Qed.

Section Checkouts.
Variable config : Config.

(** One repository: the checkouts grow by its target at most, and hold
    the target after a nil error; a clone is only made where there is no
    checkout. *)
Lemma cloneOrUpdateRepo_checkouts env repo l :
  exists a,
    actions (fst (cloneOrUpdateRepo env config repo l)) = actions l ++ [a] /\
    mkdirErr (fst (cloneOrUpdateRepo env config repo l)) = mkdirErr l /\
    snd (cloneOrUpdateRepo env config repo l) = outcome a /\
    synced [a] = [repo] /\
    failures [a] = match outcome a with Some _ => [repo] | None => [] end /\
    checkouts l ⊆ checkouts (fst (cloneOrUpdateRepo env config repo l)) /\
    checkouts (fst (cloneOrUpdateRepo env config repo l))
      ⊆ checkouts l ∪ {[targetOf config repo]} /\
    (outcome a = None ->
     targetOf config repo ∈ checkouts (fst (cloneOrUpdateRepo env config repo l))) /\
    (forall t, In t (cloneTargets [a]) -> t = targetOf config repo /\ t ∉ checkouts l) /\
    (targetOf config repo ∈ checkouts l ->
     isFetch a = true /\
     checkouts (fst (cloneOrUpdateRepo env config repo l)) = checkouts l).
Proof.
  unfold cloneOrUpdateRepo. fold (targetOf config repo).
  destruct (bool_decide (targetOf config repo ∈ checkouts l)) eqn:Hin.
  - apply bool_decide_eq_true in Hin.
    destruct (Git.gitFetch env _ _ _) as [e|];
      eexists (Fetch repo _ _);
      cbn [fst snd actions mkdirErr checkouts did logging outcome synced failures
           flat_map app cloneTargets isFetch];
      do 5 (split; [reflexivity|]);
      (split; [reflexivity|]); (split; [apply union_subseteq_l|]);
      (split; [intros _; exact Hin|]); (split; [intros t []|]);
      intros _; split; reflexivity.
  - apply bool_decide_eq_false in Hin.
    destruct (Git.gitClone env _ _ _ _) as [e|];
      eexists (Clone repo _ _ _);
      cbn [fst snd actions mkdirErr checkouts did logging checkedOut outcome synced
           failures flat_map app cloneTargets isFetch];
      do 5 (split; [reflexivity|]).
    + split; [reflexivity|]. split; [apply union_subseteq_l|].
      split; [discriminate|].
      split; [intros t [<-|[]]; split; [reflexivity | exact Hin]|].
      intros H. contradiction.
    + split; [apply union_subseteq_r|].
      split; [rewrite (comm_L union); reflexivity|].
      split; [intros _; apply elem_of_union_l, elem_of_singleton; reflexivity|].
      split; [intros t [<-|[]]; split; [reflexivity | exact Hin]|].
      intros H. contradiction.
Qed.

Lemma cloneLoop_checkouts env repos : forall l,
  exists new,
    actions (cloneLoop env config repos l) = actions l ++ new /\
    mkdirErr (cloneLoop env config repos l) = mkdirErr l /\
    synced new = repos /\
    checkouts l ⊆ checkouts (cloneLoop env config repos l) /\
    (forall t, t ∈ checkouts (cloneLoop env config repos l) ->
               t ∈ checkouts l \/ exists repo, In repo repos /\ t = targetOf config repo) /\
    (forall repo, In repo repos -> ~ In repo (failures new) ->
                  targetOf config repo ∈ checkouts (cloneLoop env config repos l)) /\
    (forall t, In t (cloneTargets new) -> t ∉ checkouts l) /\
    ((forall repo, In repo repos -> targetOf config repo ∈ checkouts l) ->
     forallb isFetch new = true /\
     checkouts (cloneLoop env config repos l) = checkouts l).
Proof.
  induction repos as [|repo rest IH]; intros l.
  - exists []. cbn [cloneLoop]. rewrite app_nil_r.
    repeat split; auto; try set_solver.
  - cbn [cloneLoop].
    destruct (cloneOrUpdateRepo_checkouts env repo l)
      as (a & Hact & Hmk & Hout & Hsync & Hfail & Hsub & Hsup & Hok & Hclone & Hfetch).
    destruct (cloneOrUpdateRepo env config repo l) as [l1 err] eqn:Hrun.
    cbn [fst snd] in *.
    set (l2 := match err with
               | Some cloneErr =>
                   logging (Warn "Failed to process repository" repo cloneErr) l1
               | None => l1
               end).
    assert (Hl2 : actions l2 = actions l1 /\ mkdirErr l2 = mkdirErr l1 /\
                  checkouts l2 = checkouts l1)
      by (subst l2; destruct err; auto).
    destruct Hl2 as (Hact2 & Hmk2 & Hch2).
    replace (match err with
             | Some cloneErr =>
                 cloneLoop env config rest
                   (logging (Warn "Failed to process repository" repo cloneErr) l1)
             | None => cloneLoop env config rest l1
             end) with (cloneLoop env config rest l2)
      by (subst l2; destruct err; reflexivity).
    destruct (IH l2) as (new & Hact' & Hmk' & Hsync' & Hsub' & Hsup' & Hok' & Hclone' & Hfetch').
    rewrite Hch2 in *. rewrite Hact2, Hact in Hact'. rewrite Hmk2, Hmk in Hmk'.
    exists (a :: new). rewrite Hact', <- app_assoc.
    split; [reflexivity|]. split; [exact Hmk'|].
    change (a :: new) with ([a] ++ new).
    rewrite synced_app, failures_app, cloneTargets_app, Hsync, Hsync', Hfail.
    split; [reflexivity|]. split; [etrans; [exact Hsub | exact Hsub']|].
    split; [|split; [|split]].
    + intros t Ht. destruct (Hsup' t Ht) as [Ht1|(r & Hr & ->)].
      * apply Hsup in Ht1. apply elem_of_union in Ht1 as [Ht1|Ht1]; [auto|].
        apply elem_of_singleton in Ht1. right. exists repo. split; [left|]; auto.
      * right. exists r. split; [right|]; auto.
    + intros r [<-|Hr] Hnot.
      * apply Hsub'. apply Hok. destruct (outcome a); [|reflexivity].
        exfalso. apply Hnot. left. reflexivity.
      * apply Hok'; [exact Hr|]. intros Hin. apply Hnot. apply in_or_app. auto.
    + intros t Ht. apply in_app_or in Ht as [Ht|Ht].
      * apply (Hclone t Ht).
      * intros Hin. apply (Hclone' t Ht). apply Hsub, Hin.
    + intros Hall.
      destruct (Hfetch (Hall repo (or_introl eq_refl))) as [Hf Hsame].
      destruct Hfetch' as [Hf' Hsame'].
      { intros r Hr. apply Hsub. apply Hall. right. exact Hr. }
      cbn [app forallb]. rewrite Hf, Hf', Hsame', Hsame. auto.
Qed.

Lemma newActions_app l l' new :
  actions l' = actions l ++ new -> newActions l l' = new.
Proof. unfold newActions. intros ->. apply drop_app_length. Qed.

(** X18: what [CloneRepos] does to the checkouts.  It removes none, and
    adds none but the targets of the configured repositories.  It clones
    only to a target that held no checkout when the run began.  After a
    run that returns nil, every configured repository for which the run
    reports no failure is checked out. *)
Theorem clone_repos_keeps_checkouts :
  forall (env : Git.Env) (l : Local),
    let r := CloneRepos env config l in
    let new := newActions l (fst r) in
    checkouts l ⊆ checkouts (fst r) /\
    (forall t, t ∈ checkouts (fst r) ->
               t ∈ checkouts l \/
               exists repo, In repo (GitRepos config) /\ t = targetOf config repo) /\
    (forall t, In t (cloneTargets new) -> t ∉ checkouts l) /\
    (snd r = None ->
     forall repo, In repo (GitRepos config) -> ~ In repo (failures new) ->
                  targetOf config repo ∈ checkouts (fst r)).
Proof.
  intros env l r new. subst r new. unfold CloneRepos.
  destruct (String.eqb (GitOrg config) "" || (Z.of_nat (length (GitRepos config)) =? 0)).
  { cbn [fst snd]. unfold newActions. rewrite drop_all.
    repeat split; auto; try discriminate; try (intros t []). }
  destruct (mkdirErr l (ReposPath config)) as [e|] eqn:Hmk.
  { cbn [fst snd]. unfold newActions, did. cbn [actions checkouts].
    rewrite drop_app_length. repeat split; auto; try discriminate; try (intros t []). }
  set (l0 := did (MkdirAll (ReposPath config) None) l).
  destruct (cloneLoop_checkouts env (GitRepos config) l0)
    as (acts & Hact & _ & _ & Hsub & Hsup & Hok & Hclone & _).
  cbn [fst snd].
  assert (Hnew : newActions l (cloneLoop env config (GitRepos config) l0)
                 = MkdirAll (ReposPath config) None :: acts).
  { apply newActions_app. rewrite Hact. subst l0. cbn [did actions].
    rewrite <- app_assoc. reflexivity. }
  rewrite Hnew. change (checkouts l0) with (checkouts l) in *.
  split; [exact Hsub|]. split; [exact Hsup|]. split; [exact Hclone|].
  intros _ repo Hrepo Hnot. apply Hok; [exact Hrepo|]. exact Hnot.
Qed.

(** X19: a run of [CloneRepos] that went through without a failure is
    followed by runs that only fetch: whatever git does then, the next
    run, on the state the first one left, makes the directory and fetches
    every configured repository, in order, and clones nothing. *)
Theorem second_run_only_fetches :
  forall (env env' : Git.Env) (l : Local),
    let l1 := fst (CloneRepos env config l) in
    GitOrg config <> "" ->
    GitRepos config <> [] ->
    mkdirErr l (ReposPath config) = None ->
    failures (newActions l l1) = [] ->
    exists fetches,
      newActions l1 (fst (CloneRepos env' config l1)) =
        MkdirAll (ReposPath config) None :: fetches /\
      forallb isFetch fetches = true /\
      synced fetches = GitRepos config /\
      checkouts (fst (CloneRepos env' config l1)) = checkouts l1.
Proof.
  intros env env' l l1 Horg Hrepos Hmk Hnofail. subst l1.
  rewrite (CloneRepos_configured env config l Horg Hrepos) in *. cbv zeta in *.
  rewrite Hmk in *. cbn [fst] in *.
  set (l0 := did (MkdirAll (ReposPath config) None) l) in *.
  destruct (cloneLoop_checkouts env (GitRepos config) l0)
    as (acts & Hact & Hmk1 & _ & _ & Hsup & Hok & _ & _).
  set (l1 := cloneLoop env config (GitRepos config) l0) in *.
  assert (Hnew : newActions l l1 = MkdirAll (ReposPath config) None :: acts).
  { apply newActions_app. rewrite Hact. subst l0. cbn [did actions].
    rewrite <- app_assoc. reflexivity. }
  rewrite Hnew in Hnofail. cbn in Hnofail. fold (failures acts) in Hnofail.
  rewrite (CloneRepos_configured env' config l1 Horg Hrepos). cbv zeta.
  rewrite Hmk1. change (mkdirErr l0) with (mkdirErr l). rewrite Hmk. cbn [fst].
  set (l2 := did (MkdirAll (ReposPath config) None) l1).
  clear Hsup.
  assert (Hall : forall repo, In repo (GitRepos config) ->
                              targetOf config repo ∈ checkouts l2).
  { intros repo Hrepo. apply Hok; [exact Hrepo|]. rewrite Hnofail. intros []. }
  destruct (cloneLoop_checkouts env' (GitRepos config) l2)
    as (fetches & Hact2 & _ & Hsync2 & _ & _ & _ & _ & Honly).
  destruct (Honly Hall) as [Hfetch2 Hsame].
  exists fetches. split; [|split; [exact Hfetch2 | split; [exact Hsync2 | exact Hsame]]].
  apply newActions_app. rewrite Hact2. subst l2. cbn [did actions].
  rewrite <- app_assoc. reflexivity.
Qed.
End Checkouts.

Lemma second_run_only_fetches_witness :
  exists fetches,
    newActions (fst (CloneRepos allSucceed sampleConfig sampleLocal))
      (fst (CloneRepos allFail sampleConfig
              (fst (CloneRepos allSucceed sampleConfig sampleLocal)))) =
      MkdirAll "/repos" None :: fetches /\
    forallb isFetch fetches = true /\
    synced fetches = ["repo1"; "repo2"] /\
    checkouts (fst (CloneRepos allFail sampleConfig
                      (fst (CloneRepos allSucceed sampleConfig sampleLocal)))) =
    checkouts (fst (CloneRepos allSucceed sampleConfig sampleLocal)).
Proof.
  apply (second_run_only_fetches sampleConfig allSucceed allFail sampleLocal).
  - discriminate.
  - discriminate.
  - reflexivity.
  - vm_compute. reflexivity.
Defined.

End CheckoutProofs.

(** ** Repository URLs and the index mapping *)
Module TextProofs.
Import GoStrings Json Elasticsearch Git TextSpec ParserProofs.

Lemma replace_none s old new : replace_from s old new 0 O = s.
Proof.
  induction s as [|a s IH]; [reflexivity|].
  cbn [replace_from]. change (0 =? 0) with true. cbn [negb andb]. rewrite IH. reflexivity.
Qed.

Lemma Contains_tail a s substr :
  Contains (String a s) substr = false ->
  HasPrefix (String a s) substr = false /\ Contains s substr = false.
Proof.
  unfold Contains. cbn [Index]. pose proof (Index_lower s substr) as Hlow.
  destruct (HasPrefix (String a s) substr); [discriminate|].
  destruct (Z.ltb_spec (Index s substr) 0) as [Hlt|Hge].
  - intros _. split; [reflexivity|]. apply Z.leb_gt. exact Hlt.
  - intros H. apply Z.leb_gt in H. lia.
Qed.

Lemma append_assoc (s1 s2 s3 : string) : (s1 +:+ s2) +:+ s3 = s1 +:+ (s2 +:+ s3).
Proof.
  induction s1 as [|a s1 IH]; [reflexivity|].
  rewrite !append_String, IH. reflexivity.
Qed.

(** Replacing in a text that does not hold the pattern changes nothing. *)
Lemma replace_absent old new : forall s n,
  Contains s old = false -> replace_from s old new n O = s.
Proof.
  induction s as [|a s IH]; intros n Habs; [reflexivity|].
  destruct (Contains_tail a s old Habs) as [Hp Hrest].
  cbn [replace_from]. rewrite Hp, andb_false_r, (IH n Hrest). reflexivity.
Qed.

(** X20: the token of [buildRepoURL].  A token is written into the URL
    only after the scheme [https://]: with a template that expands to a
    URL without [https://] (one over SSH) the token is dropped without
    notice and the URL is that of the empty token; with one that expands
    to [https://rest] the result is [https://token@rest]. *)
Theorem token_only_in_https_urls :
  forall (urlFormat org repo token : string),
    let plain := buildRepoURL urlFormat org repo "" in
    (Contains plain "https://" = false ->
     buildRepoURL urlFormat org repo token = plain) /\
    (token <> "" ->
     forall rest,
       plain = "https://" +:+ rest ->
       buildRepoURL urlFormat org repo token =
       "https://" +:+ token +:+ "@" +:+ rest).
Proof.
  intros urlFormat org repo token plain. subst plain. unfold buildRepoURL.
  change (negb (String.eqb "" "")) with false. cbv iota.
  set (url := ReplaceAll (ReplaceAll urlFormat "{org}" org) "{repo}" repo).
  split.
  - intros Habs. destruct (negb (String.eqb token "")); [|reflexivity].
    apply replace_absent, Habs.
  - intros Htoken rest Hurl.
    destruct (String.eqb_spec token "") as [|_]; [contradiction|]. cbn [negb].
    rewrite Hurl. unfold Replace.
    rewrite !append_String, append_Empty. cbn [replace_from].
    change (negb (1 =? 0)) with true. cbn [andb HasPrefix Ascii.eqb Bool.eqb].
    cbn [String.length Nat.sub]. cbn [replace_from].
    change (if 1 <? 0 then 1 else 1 - 1) with 0. rewrite replace_none.
    replace (HasPrefix rest "") with true by (destruct rest; reflexivity).
    rewrite !append_String, !append_Empty, append_assoc. reflexivity.
Qed.

Lemma token_only_in_https_urls_witness :
  buildRepoURL sshFormat "myorg" "repo1" "secret" = "git@github.com:myorg/repo1.git" /\
  buildRepoURL httpsFormat "myorg" "repo1" "secret" =
    "https://secret@github.com/myorg/repo1.git".
Proof.
  destruct (token_only_in_https_urls sshFormat "myorg" "repo1" "secret") as [Hssh _].
  destruct (token_only_in_https_urls httpsFormat "myorg" "repo1" "secret") as [_ Hhttps].
  split.
  - rewrite Hssh; reflexivity.
  - rewrite (Hhttps ltac:(discriminate) "github.com/myorg/repo1.git" eq_refl).
    reflexivity.
Defined.

(** X21: a document and the index mapping agree.  [Marshal] fails only
    on an instant that cannot be formatted.  Otherwise it writes an object
    with the ten keys of the struct tags, in the order of the struct, and
    every key is declared in [indexMapping] with a type that takes the
    value written for it. *)
Theorem mapping_declares_every_field :
  forall (formatRFC3339 : Time -> option string) (doc : CodeDocument),
    match Marshal formatRFC3339 doc with
    | inl _ => formatRFC3339 (IndexedAt doc) = None
    | inr (JObject members) =>
        map fst members = map tag fields /\
        forallb (fun member => mapped (fst member) (snd member)) members = true
    | inr _ => False
    end.
Proof.
  intros formatRFC3339 doc. unfold Marshal, fields.
  cbn [marshalFields marshalField].
  destruct (formatRFC3339 (IndexedAt doc)) as [stamp|]; [|reflexivity].
  split; [reflexivity|].
  unfold marshalString, marshalStrings. destruct (Imports doc) as [l|];
    cbn [forallb fst snd tag mapped]; vm_compute; reflexivity.
Qed.

End TextProofs.

(** ** The search endpoint *)
Module ServerProofs.
Import Elasticsearch ClientCalls ClientSpec CallsSpec Server.
Import ClientProofs RetryProofs CallsProofs.

Section Handlers.
Variable parses : string -> bool.
Variable encode : Json.value -> string.
Variable decode : string -> error + SearchResponse.
Variable decodeRequest : string -> error + SearchRequest.


End Handlers.

End ServerProofs.
